(** * wavenet/audio_reader.py: the background audio reader

    A shallow embedding of [src/wavenet/audio_reader.py] and the
    properties of its file catalogue, silence trimming, window
    segmentation, conditioning embedding and worker loop.

    Conventions.
    - A waveform is the [(n, 1)] array that [thread_main] slices as
      [audio[:window, :]]; it is the list of its [n] samples.  The
      generator [load_generic_audio] yields arrays of shape [(n,)]
      instead; [ndarray] keeps the two shapes apart, and the worker
      [thread_main] runs on what the generator yields.  Samples,
      energies and magnitudes are rationals: only comparisons, the
      literal [0.0] of [np.zeros]/[np.pad] and the literal [1.0] of
      [np.put] are used on them.
    - Python integers are [Z]; slices follow Python's clamping rules.
    - Calls into librosa and numpy whose result is not determined by this
      file ([librosa.feature.rmse], [librosa.piptrack], [np.argpartition])
      are fields of the record [library].
    - What a worker does to the outside world (the session runs that
      enqueue, the warning it prints) is a trace of [event]s. *)

From Stdlib Require Import ZArith QArith Ascii String List Lia Bool.
From stdpp Require Import base list.
Import ListNotations.
Local Open Scope Z_scope.

(** ** Python values *)

Inductive exn : Type :=
| IndexError
| ValueError
| TypeError.

Inductive result (A : Type) : Type :=
| Ok (a : A)
| Raise (e : exn).
Arguments Ok {A} a.
Arguments Raise {A} e.

(** [l[:i]], [l[i:]] and [l[i:j]]: a negative bound counts from the end,
    and every bound is clamped to [0 .. len(l)]. *)
Definition slice_bound (n : nat) (i : Z) : nat :=
  if i <? 0 then Z.to_nat (Z.max 0 (Z.of_nat n + i))
  else Nat.min n (Z.to_nat i).

Definition slice_to {A} (i : Z) (l : list A) : list A :=
  take (slice_bound (length l) i) l.

Definition slice_from {A} (i : Z) (l : list A) : list A :=
  drop (slice_bound (length l) i) l.

Definition slice {A} (i j : Z) (l : list A) : list A :=
  drop (slice_bound (length l) i) (take (slice_bound (length l) j) l).

(** [int(s)] on a string of ASCII digits. *)
Definition is_digit (c : ascii) : bool :=
  ((48 <=? nat_of_ascii c)%nat && (nat_of_ascii c <=? 57)%nat)%bool.

Definition digit_value (c : ascii) : Z := Z.of_nat (nat_of_ascii c) - 48.

Fixpoint int_digits (acc : Z) (s : string) : Z :=
  match s with
  | EmptyString => acc
  | String c s' => int_digits (10 * acc + digit_value c) s'
  end.

Definition py_int (s : string) : Z := int_digits 0 s.

(** ** [FILE_PATTERN = r'p([0-9]+)_([0-9]+)\.wav'] and [findall] *)

(** The longest run of digits at the head of [s], and what follows it.
    A greedy [[0-9]+] followed by a literal that is not a digit never
    gives a digit back, so the pattern is matched without backtracking. *)
Fixpoint span_digits (s : string) : string * string :=
  match s with
  | EmptyString => (EmptyString, EmptyString)
  | String c s' =>
      if is_digit c
      then let (d, r) := span_digits s' in (String c d, r)
      else (EmptyString, s)
  end.

Definition is_empty (s : string) : bool :=
  match s with EmptyString => true | _ => false end.

(** One attempt to match FILE_PATTERN at the head of [s]: the two groups
    and the input left after the match. *)
Definition match_here (s : string) : option ((string * string) * string) :=
  match s with
  | String "p"%char s1 =>
      let (g1, s2) := span_digits s1 in
      if is_empty g1 then None else
      match s2 with
      | String "_"%char s3 =>
          let (g2, s4) := span_digits s3 in
          if is_empty g2 then None else
          match s4 with
          | String "."%char (String "w"%char (String "a"%char (String "v"%char s5))) =>
              Some ((g1, g2), s5)
          | _ => None
          end
      | _ => None
      end
  | _ => None
  end.

(** [re.findall]: the groups of the non-overlapping matches, scanning from
    the left.  Every step consumes a character, so [length s + 1] steps
    always suffice. *)
Fixpoint findall_from (fuel : nat) (s : string) : list (string * string) :=
  match fuel with
  | O => []
  | S fuel' =>
      match match_here s with
      | Some (g, rest) => g :: findall_from fuel' rest
      | None =>
          match s with
          | EmptyString => []
          | String _ s' => findall_from fuel' s'
          end
      end
  end.

Definition findall (s : string) : list (string * string) :=
  findall_from (S (String.length s)) s.

(** ** The file catalogue *)

(** Lines 14-26. *)
Fixpoint get_category_cardinality_loop (files : list string)
    (min_id max_id : option Z) : result (option Z * option Z) :=
  match files with
  | [] => Ok (min_id, max_id)
  | filename :: files' =>
      match findall filename with
      | [] => Raise IndexError                      (* findall(filename)[0] *)
      | (g1, g2) :: _ =>
          let pianist_id := py_int g1 in
          let recording_id := py_int g2 in
          let min_id :=
            match min_id with
            | None => Some pianist_id
            | Some m => if pianist_id <? m then Some pianist_id else Some m
            end in
          let max_id :=
            match max_id with
            | None => Some pianist_id
            | Some m => if pianist_id >? m then Some pianist_id else Some m
            end in
          get_category_cardinality_loop files' min_id max_id
      end
  end.

Definition get_category_cardinality (files : list string)
    : result (option Z * option Z) :=
  get_category_cardinality_loop files None None.

(** Lines 50-57 of [load_generic_audio]: the category id of a file name. *)
Definition category_id_of (filename : string) : option Z :=
  match findall filename with
  | [] => None
  | (g1, _) :: _ => Some (py_int g1)
  end.

(** Lines 81-89. *)
Fixpoint not_all_have_id (files : list string) : bool :=
  match files with
  | [] => false
  | f :: files' =>
      match findall f with
      | [] => true
      | _ :: _ => not_all_have_id files'
      end
  end.

(** The file name matches FILE_PATTERN somewhere. *)
Definition has_id (f : string) : Prop := findall f <> [].

(** ** The reader *)

Record AudioReader : Type := {
  sample_size : option Z;
  receptive_field : Z;
  silence_threshold : option Q;
  gc_enabled : bool;
  lc_enabled : bool;
  gc_category_cardinality : option Z
}.

(** Lines 95-156.  [files] is what [find_files(audio_dir)] returned. *)
Definition AudioReader_init (files : list string)
    (gc lc : bool) (rf : Z) (ss : option Z) (thr : option Q)
    : result AudioReader :=
  match files with
  | [] => Raise ValueError
  | _ :: _ =>
      if (gc && not_all_have_id files)%bool then Raise ValueError
      else if gc then
        match get_category_cardinality files with
        | Raise e => Raise e
        | Ok (_, None) => Raise TypeError            (* None += 1 *)
        | Ok (_, Some max_id) =>
            Ok {| sample_size := ss; receptive_field := rf;
                  silence_threshold := thr; gc_enabled := gc;
                  lc_enabled := lc;
                  gc_category_cardinality := Some (max_id + 1) |}
        end
      else
        Ok {| sample_size := ss; receptive_field := rf;
              silence_threshold := thr; gc_enabled := gc;
              lc_enabled := lc;
              gc_category_cardinality := None |}
  end.

(** ** Library calls

    [rmse audio frame_length] is the row of frame energies
    [librosa.feature.rmse(audio, frame_length=frame_length)[0]];
    [piptrack piece] is the magnitude matrix [librosa.piptrack(piece)[1]],
    one row per frequency bin and one column per frame;
    [argpartition a kth] is [np.argpartition(a, kth)]. *)
Record library : Type := {
  rmse : list Q -> Z -> list Q;
  piptrack : list Q -> list (list Q);
  argpartition : list Q -> Z -> list nat
}.

(** librosa's default hop, used by [frames_to_samples]. *)
Definition hop_length : Z := 512.

(** [np.nonzero(mask)]: the indices of the true entries, ascending. *)
Fixpoint np_nonzero_from (i : nat) (mask : list bool) : list nat :=
  match mask with
  | [] => []
  | b :: mask' =>
      if b then i :: np_nonzero_from (S i) mask'
      else np_nonzero_from (S i) mask'
  end.

Definition np_nonzero (mask : list bool) : list nat := np_nonzero_from 0 mask.

Definition Qgt_bool (x y : Q) : bool := negb (Qle_bool x y).

Definition is_nonzero (x : Q) : bool := negb (Qeq_bool x 0).

(** ** Silence trimming (lines 66-78) *)

Definition trim_silence (L : library) (audio : list Q) (threshold : Q)
    (frame_length : Z) : list Q :=
  let size := Z.of_nat (length audio) in
  let frame_length := if size <? frame_length then size else frame_length in
  let energy := rmse L audio frame_length in
  let frames := np_nonzero (map (fun e => Qgt_bool e threshold) energy) in
  let indices := map (fun f => Z.of_nat f * hop_length) frames in
  match indices with
  | [] => slice 0 0 audio
  | first :: _ => slice first (default 0 (last indices)) audio
  end.

(** The frame length [trim_silence] hands to [rmse]. *)
Definition clamp_frame_length (a : list Q) (frame_length : Z) : Z :=
  if Z.of_nat (length a) <? frame_length then Z.of_nat (length a) else frame_length.

(** ** The conditioning embedding (lines 201-214) *)

(** [np.put(a, ind, [v])]; an index outside [a] raises. *)
Fixpoint np_put (a : list Q) (ind : list nat) (v : Q) : result (list Q) :=
  match ind with
  | [] => Ok a
  | i :: ind' =>
      if (i <? length a)%nat then np_put (<[i:=v]> a) ind' v
      else Raise IndexError
  end.

(** [np.transpose] of a matrix given as the list of its rows. *)
Definition np_transpose (m : list (list Q)) : list (list Q) :=
  match m with
  | [] => []
  | r0 :: _ => map (fun j => map (fun r => nth j r 0%Q) m) (seq 0 (length r0))
  end.

(** [len(np.nonzero(a)[0])]. *)
Definition nonzero_cnt (a : list Q) : nat :=
  length (np_nonzero (map is_nonzero a)).

(** The body of [for i in range(magnitudes.shape[0])] for one row. *)
Definition lc_row (L : library) (mags : list Q) : result (list Q) :=
  let num_ind_to_keep := Z.min (Z.of_nat (nonzero_cnt mags)) 6 in
  let ind_of_largest_mags :=
    if num_ind_to_keep =? 0 then []
    else slice_from (- num_ind_to_keep)
           (argpartition L mags (- num_ind_to_keep)) in
  np_put (replicate (length mags) 0%Q) ind_of_largest_mags 1%Q.

Fixpoint lc_rows (L : library) (magnitudes : list (list Q))
    : result (list (list Q)) :=
  match magnitudes with
  | [] => Ok []
  | mags :: magnitudes' =>
      match lc_row L mags with
      | Raise e => Raise e
      | Ok row =>
          match lc_rows L magnitudes' with
          | Raise e => Raise e
          | Ok rows => Ok (row :: rows)
          end
      end
  end.

Definition lc_embedding (L : library) (piece : list Q) : result (list (list Q)) :=
  lc_rows L (np_transpose (piptrack L piece)).

(** ** The worker

    A worker's effects are the session runs on the three enqueue
    operations and the warning it prints.  A computation takes the trace
    emitted so far and returns the extended trace with its outcome: a
    value, a Python exception, or [Timeout] when a [while] loop was cut
    after [fuel] iterations. *)

Inductive event : Type :=
| Print_warning (filename : string)
| Enqueue (piece : list Q)
| Gc_enqueue (category_id : Z)
| Lc_enqueue (embedding : list (list Q)).

Inductive status (A : Type) : Type :=
| Ret (a : A)
| Raised (e : exn)
| Timeout.
Arguments Ret {A} a.
Arguments Raised {A} e.
Arguments Timeout {A}.

Definition worker (A : Type) : Type := list event -> list event * status A.

Definition ret {A} (a : A) : worker A := fun tr => (tr, Ret a).

Definition bind {A B} (m : worker A) (k : A -> worker B) : worker B :=
  fun tr =>
    match m tr with
    | (tr', Ret a) => k a tr'
    | (tr', Raised e) => (tr', Raised e)
    | (tr', Timeout) => (tr', Timeout)
    end.

Notation "x <- m ;; k" := (bind m (fun x => k))
  (at level 62, m at next level, right associativity).
Notation "m ;;; k" := (bind m (fun _ => k))
  (at level 62, right associativity).

Definition emit (e : event) : worker unit := fun tr => (tr ++ [e], Ret tt).

Definition raise {A} (e : exn) : worker A := fun tr => (tr, Raised e).

Definition timeout {A} : worker A := fun tr => (tr, Timeout).

Definition lift {A} (r : result A) : worker A :=
  match r with
  | Ok a => ret a
  | Raise e => raise e
  end.

(** [coord.should_stop()]: the flag is set by another thread; [coord n] is
    what a worker reads once it has emitted [n] events. *)
Definition should_stop (coord : nat -> bool) : worker bool :=
  fun tr => (tr, Ret (coord (length tr))).

(** A file as the body of the loop works on it: the samples of the
    waveform as an [(n, 1)] array, the file name and the category id. *)
Record item : Type := {
  audio : list Q;
  filename : string;
  category_id : option Z
}.

(** [np.pad(audio, [[receptive_field, 0], [0, 0]], 'constant')]. *)
Definition np_pad_head (rf : Z) (a : list Q) : worker (list Q) :=
  if rf <? 0 then raise ValueError
  else ret (replicate (Z.to_nat rf) 0%Q ++ a).

(** Lines 177-187. *)
Definition preprocess (L : library) (r : AudioReader) (it : item)
    : worker (list Q) :=
  a <- match silence_threshold r with
       | Some thr =>
           let a := trim_silence L (audio it) thr 2048 in
           (if (length a =? 0)%nat then emit (Print_warning (filename it))
            else ret tt) ;;;
           ret a
       | None => ret (audio it)
       end ;;
  np_pad_head (receptive_field r) a.

(** [sess.run(self.gc_enqueue, feed_dict={self.id_placeholder: category_id})]:
    [None] cannot be fed. *)
Definition gc_push (r : AudioReader) (it : item) : worker unit :=
  if gc_enabled r then
    match category_id it with
    | Some id => emit (Gc_enqueue id)
    | None => raise TypeError
    end
  else ret tt.

(** Lines 199-217. *)
Definition lc_push (L : library) (r : AudioReader) (piece : list Q)
    : worker unit :=
  if lc_enabled r then
    e <- lift (lc_embedding L piece) ;; emit (Lc_enqueue e)
  else ret tt.

(** Lines 193-217: [while len(audio) > window]. *)
Fixpoint window_loop (fuel : nat) (L : library) (r : AudioReader) (it : item)
    (window ss : Z) (a : list Q) : worker unit :=
  match fuel with
  | O => timeout
  | S fuel' =>
      if Z.of_nat (length a) >? window then
        let piece := slice_to window a in
        emit (Enqueue piece) ;;;
        let a' := slice_from ss a in
        gc_push r it ;;;
        lc_push L r piece ;;;
        window_loop fuel' L r it window ss a'
      else ret tt
  end.

(** Lines 189-223: the padded waveform goes to the queues. *)
Definition enqueue_file (fuel : nat) (L : library) (r : AudioReader)
    (it : item) (a : list Q) : worker unit :=
  let whole := emit (Enqueue a) ;;; gc_push r it in
  match sample_size r with
  | Some ss =>
      if ss =? 0 then whole
      else window_loop fuel L r it (receptive_field r + ss) ss a
  | None => whole
  end.

(** Lines 177-223: the body of the [for] loop after the cancellation test. *)
Definition process_file (fuel : nat) (L : library) (r : AudioReader)
    (it : item) : worker unit :=
  a <- preprocess L r it ;; enqueue_file fuel L r it a.

(** ** Reading a trace *)

(** What went to the sample queue, to the category queue and to the
    conditioning queue, in the order of the pushes. *)
Fixpoint enqueued (tr : list event) : list (list Q) :=
  match tr with
  | [] => []
  | Enqueue piece :: tr' => piece :: enqueued tr'
  | _ :: tr' => enqueued tr'
  end.

Fixpoint gc_enqueued (tr : list event) : list Z :=
  match tr with
  | [] => []
  | Gc_enqueue id :: tr' => id :: gc_enqueued tr'
  | _ :: tr' => gc_enqueued tr'
  end.

Fixpoint lc_enqueued (tr : list event) : list (list (list Q)) :=
  match tr with
  | [] => []
  | Lc_enqueue e :: tr' => e :: lc_enqueued tr'
  | _ :: tr' => lc_enqueued tr'
  end.

(** ** The segmentation in closed form

    The loop of lines 193-196 leaves the window loop after
    [window_count] rounds; round [k] cuts [audio[k*ss : k*ss + rf + ss]]. *)
Definition window_count (len rf ss : Z) : nat :=
  if len >? rf + ss then Z.to_nat ((len - rf - 1) / ss) else 0%nat.

Definition windows_of (rf ss : Z) (a : list Q) : list (list Q) :=
  map (fun k => take (Z.to_nat (rf + ss)) (drop (k * Z.to_nat ss) a))
      (seq 0 (window_count (Z.of_nat (length a)) rf ss)).

(** The pushes made for one window when no feed fails. *)
Definition gc_events (r : AudioReader) (it : item) : list event :=
  if gc_enabled r then
    match category_id it with
    | Some id => [Gc_enqueue id]
    | None => []
    end
  else [].

Definition lc_events (L : library) (r : AudioReader) (piece : list Q)
    : list event :=
  if lc_enabled r then
    match lc_embedding L piece with
    | Ok e => [Lc_enqueue e]
    | Raise _ => []
    end
  else [].

Definition window_events (L : library) (r : AudioReader) (it : item)
    (piece : list Q) : list event :=
  Enqueue piece :: gc_events r it ++ lc_events L r piece.

(** The category id can be fed, and the embedding of every window of [a]
    can be built. *)
Definition feeds_ok (L : library) (r : AudioReader) (it : item)
    (ws : list (list Q)) : Prop :=
  (gc_enabled r = true -> category_id it <> None)
  /\ (lc_enabled r = true ->
      Forall (fun piece => exists e, lc_embedding L piece = Ok e) ws).

(** The same for every window whatsoever. *)
Definition feeds (L : library) (r : AudioReader) (it : item) : Prop :=
  (gc_enabled r = true -> category_id it <> None)
  /\ (lc_enabled r = true -> forall piece, exists e, lc_embedding L piece = Ok e).

(** ** The contract of [np.argpartition]

    [p = np.argpartition(a, kth)], with [kth] resolved to the position
    [k], lists every index of [a] once, and no value at a position before
    [k] is greater than a value at position [k] or after it. *)
Definition is_argpartition (a : list Q) (k : nat) (p : list nat) : bool :=
  (length p =? length a)%nat
  && forallb (fun i => (i <? length a)%nat) p
  && bool_decide (NoDup p)
  && forallb (fun i =>
        forallb (fun j => Qle_bool (nth i a 0%Q) (nth j a 0%Q)) (drop k p))
       (take k p).

(** The call of line 211, when it is made, honours the contract. *)
Definition argpartition_ok (L : library) (mags : list Q) : bool :=
  let num_ind_to_keep := Z.min (Z.of_nat (nonzero_cnt mags)) 6 in
  (num_ind_to_keep =? 0)
  || is_argpartition mags (length mags - Z.to_nat num_ind_to_keep)
       (argpartition L mags (- num_ind_to_keep)).

(** What a row of the embedding is to the row of magnitudes it is built
    from. *)
Definition embedding_row_ok (mags row : list Q) : Prop :=
  length row = length mags
  /\ (forall j v, row !! j = Some v -> v = 0%Q \/ v = 1%Q)
  /\ nonzero_cnt row = Nat.min (nonzero_cnt mags) 6
  /\ (nonzero_cnt row <= 6)%nat
  /\ (forall j m, row !! j = Some 1%Q -> mags !! j = Some m ->
        ~ (m == 0)%Q
        /\ forall j' m', row !! j' = Some 0%Q -> mags !! j' = Some m' ->
             (m' <= m)%Q)
  /\ (Forall (fun m => (m == 0)%Q) mags -> Forall (fun v => v = 0%Q) row).

(** The array after [np.put(a, ind, [v])] when no index is out of range. *)
Definition put_all (a : list Q) (ind : list nat) (v : Q) : list Q :=
  foldl (fun acc i => <[i:=v]> acc) a ind.

(** ** An instance of the library calls, to run the model *)

(** [librosa.feature.rmse] on a waveform whose samples all have absolute
    value 1: the waveform is padded by [frame_length // 2] reflected
    samples on each side and framed with hop 512, and the root mean square
    of a frame of unit samples is 1. *)
Definition rmse_unit (a : list Q) (frame_length : Z) : list Q :=
  let padded := Z.of_nat (length a) + 2 * (frame_length / 2) in
  replicate (Z.to_nat (1 + (padded - frame_length) / hop_length)) 1%Q.

(** A full sort of the indices by value is one of the results
    [np.argpartition] may return. *)
Fixpoint insert_index (a : list Q) (i : nat) (sorted : list nat) : list nat :=
  match sorted with
  | [] => [i]
  | j :: sorted' =>
      if Qle_bool (nth i a 0%Q) (nth j a 0%Q) then i :: sorted
      else j :: insert_index a i sorted'
  end.

Definition argsort (a : list Q) : list nat :=
  foldr (insert_index a) [] (seq 0 (length a)).

(** Magnitudes of eight frequency bins over three frames: seven peaks in
    the first frame, none in the second, three in the third. *)
Definition example_magnitudes : list (list Q) :=
  [ [7; 0; 0]; [3; 0; 2]; [0; 0; 0]; [5; 0; 0];
    [1; 0; 2]; [2; 0; 0]; [9; 0; 0]; [4; 0; 1] ]%Q.

Definition example_library : library := {|
  rmse := rmse_unit;
  piptrack := fun _ => example_magnitudes;
  argpartition := fun a _ => argsort a
|}.

Definition reader (ss : option Z) (rf : Z) (thr : option Q) (gc lc : bool)
    : AudioReader := {|
  sample_size := ss; receptive_field := rf; silence_threshold := thr;
  gc_enabled := gc; lc_enabled := lc; gc_category_cardinality := None
|}.

(** The reader [r] with another [sample_size]. *)
Definition with_sample_size (ss : option Z) (r : AudioReader) : AudioReader := {|
  sample_size := ss;
  receptive_field := receptive_field r;
  silence_threshold := silence_threshold r;
  gc_enabled := gc_enabled r;
  lc_enabled := lc_enabled r;
  gc_category_cardinality := gc_category_cardinality r
|}.

(** ** Finding the files (lines 29-35) *)

(** [fnmatch.filter(filenames, '*.wav')] on a POSIX system: the names with
    the suffix [.wav]. *)
Fixpoint ends_with_wav (s : string) : bool :=
  match s with
  | EmptyString => false
  | String _ s' => (String.eqb s ".wav" || ends_with_wav s')%bool
  end.

Fixpoint fnmatch_filter (names : list string) : list string :=
  match names with
  | [] => []
  | name :: names' =>
      if ends_with_wav name then name :: fnmatch_filter names'
      else fnmatch_filter names'
  end.

Definition starts_with_slash (s : string) : bool :=
  match s with
  | String "/"%char _ => true
  | _ => false
  end.

Fixpoint ends_with_slash (s : string) : bool :=
  match s with
  | EmptyString => false
  | String c EmptyString => Ascii.eqb c "/"%char
  | String _ s' => ends_with_slash s'
  end.

(** [os.path.join(root, filename)] on a POSIX system. *)
Definition path_join (root filename : string) : string :=
  if starts_with_slash filename then filename
  else if (is_empty root || ends_with_slash root)%bool then (root ++ filename)%string
  else (root ++ "/" ++ filename)%string.

(** [walk] is what [os.walk(directory)] yields: for each directory its
    path, its subdirectories and its files.  The pattern is the default
    ['*.wav'], the only one the module uses. *)
Fixpoint find_files (walk : list (string * list string * list string))
    : list string :=
  match walk with
  | [] => []
  | (root, _, filenames) :: walk' =>
      map (path_join root) (fnmatch_filter filenames) ++ find_files walk'
  end.

(** ** Loading the audio (lines 38-63) *)

(** The two array shapes that occur: [(n,)], as [librosa.load] with
    [mono=True] returns it, and [(n, 1)], as [thread_main] indexes it. *)
Inductive ndarray : Type :=
| Vector (samples : list Q)
| Column (samples : list Q).

(** A tuple of the generator. *)
Record yielded : Type := {
  yielded_audio : ndarray;
  yielded_filename : string;
  yielded_category_id : option Z
}.

(** [randomize_files]: one draw per file, [draw k] being the k-th answer
    of [random.randint(0, len(fns) - 1)].  The value is the list of the
    names yielded, with the exception that ended the generator if one
    did. *)
Fixpoint randomize_files_at (fns : list string) (draw : nat -> nat)
    (positions : list nat) : list string * option exn :=
  match positions with
  | [] => ([], None)
  | k :: positions' =>
      match fns !! draw k with
      | None => ([], Some IndexError)
      | Some fn =>
          let (fns', e) := randomize_files_at fns draw positions' in
          (fn :: fns', e)
      end
  end.

Definition randomize_files (fns : list string) (draw : nat -> nat)
    : list string * option exn :=
  randomize_files_at fns draw (seq 0 (length fns)).

(** Lines 50-63 for one file name.  [decode filename sample_rate] is the
    waveform after [librosa.load] and [librosa.util.normalize]. *)
Definition load_file (decode : string -> Z -> list Q) (sample_rate : Z)
    (fn : string) : yielded := {|
  yielded_audio := Vector (slice_to (- 5 * sample_rate) (decode fn sample_rate));
  yielded_filename := fn;
  yielded_category_id := category_id_of fn
|}.

Definition load_generic_audio (decode : string -> Z -> list Q)
    (walk : list (string * list string * list string)) (sample_rate : Z)
    (draw : nat -> nat) : list yielded * option exn :=
  let files := find_files walk in
  let (fns, e) := randomize_files files draw in
  (map (load_file decode sample_rate) fns, e).

(** Lines 179 and 187 index the array as [audio[:, 0]] and pad it with
    [[[receptive_field, 0], [0, 0]]]: both need two dimensions.  On a
    vector the first raises [IndexError] and the second [ValueError]. *)
Definition as_item (r : AudioReader) (y : yielded) : result item :=
  match yielded_audio y with
  | Column samples =>
      Ok {| audio := samples; filename := yielded_filename y;
            category_id := yielded_category_id y |}
  | Vector _ =>
      match silence_threshold r with
      | Some _ => Raise IndexError
      | None => Raise ValueError
      end
  end.

(** The body of the [for] loop on a tuple of the generator. *)
Definition process_yielded (fuel : nat) (L : library) (r : AudioReader)
    (y : yielded) : worker unit :=
  it <- lift (as_item r y) ;; process_file fuel L r it.

(** Lines 173-223: one pass over the tuples of the generator.  [ended] is
    the exception that ended the generator, if one did; the value is the
    [stop] flag. *)
Fixpoint epoch_loop (fuel : nat) (L : library) (r : AudioReader)
    (coord : nat -> bool) (ys : list yielded) (ended : option exn)
    : worker bool :=
  match ys with
  | [] =>
      match ended with
      | Some e => raise e
      | None => ret false
      end
  | y :: ys' =>
      c <- should_stop coord ;;
      if c then ret true
      else process_yielded fuel L r y ;;; epoch_loop fuel L r coord ys' ended
  end.

(** Lines 168-223: [while not stop], each pass on a fresh iterator
    [load_generic_audio(self.audio_dir, self.sample_rate)].  [walk] is
    what [os.walk(self.audio_dir)] yields, [sample_rate] is
    [self.sample_rate], and [draws] gives, pass after pass, the answers of
    [random.randint]; a worker that outlives [draws] is still running. *)
Fixpoint thread_main (fuel : nat) (L : library) (r : AudioReader)
    (coord : nat -> bool) (decode : string -> Z -> list Q)
    (walk : list (string * list string * list string)) (sample_rate : Z)
    (draws : list (nat -> nat)) : worker unit :=
  match draws with
  | [] => timeout
  | draw :: draws' =>
      let (ys, ended) := load_generic_audio decode walk sample_rate draw in
      stop <- epoch_loop fuel L r coord ys ended ;;
      if stop then ret tt
      else thread_main fuel L r coord decode walk sample_rate draws'
  end.

(** Lines 180-223 on the waveform [a] that [trim_silence] returned, which
    line 180 reshapes to [(n, 1)]. *)
Definition after_trim (fuel : nat) (L : library) (r : AudioReader)
    (it : item) (a : list Q) : worker unit :=
  (if (length a =? 0)%nat then emit (Print_warning (filename it))
   else ret tt) ;;;
  a' <- np_pad_head (receptive_field r) a ;;
  enqueue_file fuel L r it a'.


(** ** Strings of digits *)

Fixpoint all_digits (s : string) : bool :=
  match s with
  | EmptyString => true
  | String c s' => (is_digit c && all_digits s')%bool
  end.

(** No letter [p] in the string. *)
Fixpoint no_p (s : string) : Prop :=
  match s with
  | EmptyString => True
  | String c s' => c <> "p"%char /\ no_p s'
  end.

(** A reader spelled out, cardinality included. *)
Definition reader_with_cardinality (ss : option Z) (rf : Z) (thr : option Q)
    (gc lc : bool) (card : option Z) : AudioReader := {|
  sample_size := ss; receptive_field := rf; silence_threshold := thr;
  gc_enabled := gc; lc_enabled := lc; gc_category_cardinality := card
|}.

(** * Properties *)

Example findall_p7_3 : findall "p7_3.wav" = [("7", "3")]%string.
Proof. reflexivity. Qed.

Example findall_recording : findall "recording.wav" = [].
Proof. reflexivity. Qed.

Example findall_nested : findall "corpus/p12_004.wav.p3_1.wav" = [("12", "004"); ("3", "1")]%string.
Proof. reflexivity. Qed.

(** ** The file catalogue *)

Lemma category_id_of_has_id f : has_id f -> exists id, category_id_of f = Some id.
Proof.
  unfold has_id, category_id_of. destruct (findall f) as [|[g1 g2] ms]; [congruence|].
  intros _. by eexists.
Qed.

Lemma not_all_have_id_false files :
  not_all_have_id files = false <-> Forall has_id files.
Proof.
  unfold has_id. induction files as [|f files IH]; simpl.
  - split; [constructor | done].
  - destruct (findall f) eqn:E.
    + split; [done | intros H; inversion H; subst; congruence].
    + rewrite IH. split.
      * intros H. constructor; [congruence | done].
      * intros H. by inversion H.
Qed.

(** The loop keeps the running minimum and maximum of the ids seen. *)
Lemma cardinality_loop_bounds files : forall lo0 hi0,
  Forall has_id files -> lo0 <= hi0 ->
  exists lo hi,
    get_category_cardinality_loop files (Some lo0) (Some hi0) = Ok (Some lo, Some hi)
    /\ lo <= lo0 /\ hi0 <= hi
    /\ (lo = lo0 \/ exists f, f ∈ files /\ category_id_of f = Some lo)
    /\ (hi = hi0 \/ exists f, f ∈ files /\ category_id_of f = Some hi)
    /\ (forall f id, f ∈ files -> category_id_of f = Some id -> lo <= id <= hi).
Proof.
  induction files as [|f files IH]; intros lo0 hi0 Hall Hle.
  - exists lo0, hi0. simpl.
    split; [done|]. split; [lia|]. split; [lia|].
    split; [by left|]. split; [by left|].
    intros f id Hin. by apply elem_of_nil in Hin.
  - inversion Hall as [|? ? Hf Hrest]; subst.
    simpl. unfold has_id in Hf.
    destruct (findall f) as [|[g1 g2] ms] eqn:E; [congruence|].
    assert (Hid : category_id_of f = Some (py_int g1))
      by (unfold category_id_of; by rewrite E).
    set (id := py_int g1) in *.
    set (lo1 := if id <? lo0 then id else lo0).
    set (hi1 := if id >? hi0 then id else hi0).
    assert (Hlo1 : (if id <? lo0 then Some id else Some lo0) = Some lo1)
      by (unfold lo1; by destruct (id <? lo0)).
    assert (Hhi1 : (if id >? hi0 then Some id else Some hi0) = Some hi1)
      by (unfold hi1; by destruct (id >? hi0)).
    rewrite Hlo1, Hhi1.
    assert (Hb : lo1 <= lo0 /\ lo1 <= id /\ hi0 <= hi1 /\ id <= hi1
                 /\ (lo1 = lo0 \/ lo1 = id) /\ (hi1 = hi0 \/ hi1 = id)).
    { unfold lo1, hi1.
      destruct (Z.ltb_spec id lo0), (Z.gtb_spec id hi0); lia. }
    destruct Hb as (B1 & B2 & B3 & B4 & B5 & B6).
    destruct (IH lo1 hi1 Hrest ltac:(lia))
      as (lo & hi & Hrun & L1 & L2 & Hlo & Hhi & Hbnd).
    exists lo, hi. split; [exact Hrun|].
    split; [lia|]. split; [lia|].
    split; [|split].
    + destruct Hlo as [->|(f' & Hin & Hf')].
      * destruct B5 as [->| ->]; [by left|].
        right. exists f. split; [apply list_elem_of_here | done].
      * right. exists f'. split; [by apply list_elem_of_further | done].
    + destruct Hhi as [->|(f' & Hin & Hf')].
      * destruct B6 as [->| ->]; [by left|].
        right. exists f. split; [apply list_elem_of_here | done].
      * right. exists f'. split; [by apply list_elem_of_further | done].
    + intros f' id' Hin Hf'. apply elem_of_cons in Hin as [->|Hin].
      * rewrite Hid in Hf'. injection Hf' as <-. lia.
      * by apply (Hbnd f').
Qed.

Lemma cardinality_loop_missing_id files : forall lo hi,
  Exists (fun f => findall f = []) files ->
  get_category_cardinality_loop files lo hi = Raise IndexError.
Proof.
  induction files as [|f files IH]; intros lo hi Hex.
  - inversion Hex.
  - simpl. destruct (findall f) as [|[g1 g2] ms] eqn:E; [done|].
    apply IH. inversion Hex; subst; [congruence | done].
Qed.

Lemma cardinality_loop_all_ids files : forall lo hi,
  Forall has_id files ->
  exists v, get_category_cardinality_loop files lo hi = Ok v.
Proof.
  induction files as [|f files IH]; intros lo hi Hall.
  - by eexists.
  - inversion Hall as [|? ? Hf Hrest]; subst. simpl. unfold has_id in Hf.
    destruct (findall f) as [|[g1 g2] ms]; [congruence|]. by apply IH.
Qed.

(** C8: on a non-empty list of file names that all match the pattern,
    [get_category_cardinality] returns the least and the greatest pianist
    id (the first numeric group) found in the list, and with global
    conditioning enabled [AudioReader.__init__] sets the table size to the
    greatest id plus one. *)
Theorem cardinality_is_min_max (files : list string) :
  files <> [] -> Forall has_id files ->
  exists lo hi,
    get_category_cardinality files = Ok (Some lo, Some hi)
    /\ (exists f, f ∈ files /\ category_id_of f = Some lo)
    /\ (exists f, f ∈ files /\ category_id_of f = Some hi)
    /\ (forall f id, f ∈ files -> category_id_of f = Some id -> lo <= id <= hi)
    /\ (forall lc rf ss thr, exists r,
          AudioReader_init files true lc rf ss thr = Ok r
          /\ gc_category_cardinality r = Some (hi + 1)).
Proof.
  intros Hne Hall. destruct files as [|f files]; [congruence|].
  inversion Hall as [|? ? Hf Hrest]; subst.
  assert (Hstep : exists id, category_id_of f = Some id
            /\ get_category_cardinality (f :: files)
               = get_category_cardinality_loop files (Some id) (Some id)).
  { unfold get_category_cardinality, category_id_of. simpl. unfold has_id in Hf.
    destruct (findall f) as [|[g1 g2] ms]; [congruence|]. by eexists. }
  destruct Hstep as (id & Hid & Hstep).
  destruct (cardinality_loop_bounds files id id Hrest ltac:(lia))
    as (lo & hi & Hrun & L1 & L2 & Hlo & Hhi & Hbnd).
  assert (Hcard : get_category_cardinality (f :: files) = Ok (Some lo, Some hi))
    by (by rewrite Hstep).
  exists lo, hi. split; [exact Hcard|].
  split; [|split; [|split]].
  - destruct Hlo as [->|(f' & Hin & Hf')].
    + exists f. split; [apply list_elem_of_here | done].
    + exists f'. split; [by apply list_elem_of_further | done].
  - destruct Hhi as [->|(f' & Hin & Hf')].
    + exists f. split; [apply list_elem_of_here | done].
    + exists f'. split; [by apply list_elem_of_further | done].
  - intros f' id' Hin Hf'. apply elem_of_cons in Hin as [->|Hin].
    + rewrite Hid in Hf'. injection Hf' as <-. lia.
    + by apply (Hbnd f').
  - intros lc rf ss thr. unfold AudioReader_init.
    assert (Hn : not_all_have_id (f :: files) = false)
      by (by apply not_all_have_id_false).
    rewrite Hn, Hcard. simpl. by eexists.
Qed.

Lemma cardinality_is_min_max_witness :
  exists lo hi,
    get_category_cardinality ["p2_1.wav"; "p9_3.wav"; "p5_1.wav"]%string
      = Ok (Some lo, Some hi)
    /\ (exists f, f ∈ ["p2_1.wav"; "p9_3.wav"; "p5_1.wav"]%string
          /\ category_id_of f = Some lo)
    /\ (exists f, f ∈ ["p2_1.wav"; "p9_3.wav"; "p5_1.wav"]%string
          /\ category_id_of f = Some hi)
    /\ (forall f id, f ∈ ["p2_1.wav"; "p9_3.wav"; "p5_1.wav"]%string ->
          category_id_of f = Some id -> lo <= id <= hi)
    /\ (forall lc rf ss thr, exists r,
          AudioReader_init ["p2_1.wav"; "p9_3.wav"; "p5_1.wav"]%string
            true lc rf ss thr = Ok r
          /\ gc_category_cardinality r = Some (hi + 1)).
Proof.
  apply (cardinality_is_min_max ["p2_1.wav"; "p9_3.wav"; "p5_1.wav"]%string).
  - discriminate.
  - repeat constructor; unfold has_id; vm_compute; discriminate.
Defined.

(** The example of the specification: ids 2, 5 and 9. *)
Example cardinality_2_5_9 :
  get_category_cardinality ["p2_1.wav"; "p9_3.wav"; "p5_1.wav"]%string
    = Ok (Some 2, Some 9)
  /\ gc_category_cardinality
       <$> (match AudioReader_init ["p2_1.wav"; "p9_3.wav"; "p5_1.wav"]%string
                    true false 1000 (Some 4000) None with
            | Ok r => Some r
            | Raise _ => None
            end) = Some (Some 10).
Proof. split; reflexivity. Qed.

(** C10: [get_category_cardinality] raises [IndexError] as soon as one
    file name has no match; when [not_all_have_id] answered [False] it
    returns normally; and [AudioReader.__init__], which calls it only
    behind those tests, never raises [IndexError]. *)
Theorem cardinality_index_error_unreachable :
  (forall files, Exists (fun f => findall f = []) files ->
     get_category_cardinality files = Raise IndexError)
  /\ (forall files, not_all_have_id files = false ->
        exists v, get_category_cardinality files = Ok v)
  /\ (forall files gc lc rf ss thr,
        AudioReader_init files gc lc rf ss thr <> Raise IndexError).
Proof.
  split; [|split].
  - intros files Hex. by apply cardinality_loop_missing_id.
  - intros files Hn. apply cardinality_loop_all_ids.
    by apply not_all_have_id_false.
  - intros files gc lc rf ss thr. unfold AudioReader_init.
    destruct files as [|f files]; [discriminate|].
    destruct gc; cbn [andb]; [|discriminate].
    destruct (not_all_have_id (f :: files)) eqn:Hn; [discriminate|].
    destruct (cardinality_loop_all_ids (f :: files) None None) as [v Hv].
    { by apply not_all_have_id_false. }
    unfold get_category_cardinality. rewrite Hv.
    destruct v as [lo [hi|]]; discriminate.
Qed.

Lemma cardinality_index_error_unreachable_witness :
  get_category_cardinality ["p2_1.wav"; "recording.wav"]%string = Raise IndexError
  /\ (exists v, get_category_cardinality ["p2_1.wav"; "p9_3.wav"]%string = Ok v)
  /\ AudioReader_init ["p2_1.wav"; "recording.wav"]%string true false 1000 None None
       <> Raise IndexError.
Proof.
  destruct cardinality_index_error_unreachable as (H1 & H2 & H3).
  split; [|split].
  - apply H1. constructor 2. constructor 1. reflexivity.
  - apply H2. reflexivity.
  - apply H3.
Defined.

(** ** Slices with bounds that are not negative *)

Lemma slice_to_nonneg {A} (i : Z) (l : list A) :
  0 <= i -> slice_to i l = take (Z.to_nat i) l.
Proof.
  intros Hi. unfold slice_to, slice_bound.
  destruct (Z.ltb_spec i 0); [lia|].
  destruct (Nat.le_ge_cases (length l) (Z.to_nat i)) as [Hle|Hge].
  - rewrite Nat.min_l by done. by rewrite !take_ge by lia.
  - by rewrite Nat.min_r by done.
Qed.

Lemma slice_from_nonneg {A} (i : Z) (l : list A) :
  0 <= i -> slice_from i l = drop (Z.to_nat i) l.
Proof.
  intros Hi. unfold slice_from, slice_bound.
  destruct (Z.ltb_spec i 0); [lia|].
  destruct (Nat.le_ge_cases (length l) (Z.to_nat i)) as [Hle|Hge].
  - rewrite Nat.min_l by done. by rewrite !drop_ge by lia.
  - by rewrite Nat.min_r by done.
Qed.

Lemma slice_nonneg {A} (i j : Z) (l : list A) :
  0 <= i -> 0 <= j -> slice i j l = drop (Z.to_nat i) (take (Z.to_nat j) l).
Proof.
  intros Hi Hj. unfold slice, slice_bound.
  destruct (Z.ltb_spec i 0); [lia|]. destruct (Z.ltb_spec j 0); [lia|].
  assert (Ht : take (length l `min` Z.to_nat j) l = take (Z.to_nat j) l).
  { destruct (Nat.le_ge_cases (length l) (Z.to_nat j)).
    - rewrite Nat.min_l by done. by rewrite !take_ge by lia.
    - by rewrite Nat.min_r by done. }
  rewrite Ht.
  destruct (Nat.le_ge_cases (length l) (Z.to_nat i)).
  - rewrite Nat.min_l by done.
    pose proof (length_take l (Z.to_nat j)).
    by rewrite !drop_ge by lia.
  - by rewrite Nat.min_r by done.
Qed.

(** ** Reading a trace *)

Lemma enqueued_app tr1 tr2 : enqueued (tr1 ++ tr2) = enqueued tr1 ++ enqueued tr2.
Proof.
  induction tr1 as [|e tr1 IH]; [done|]. destruct e; simpl; by rewrite IH.
Qed.

Lemma lc_enqueued_app tr1 tr2 :
  lc_enqueued (tr1 ++ tr2) = lc_enqueued tr1 ++ lc_enqueued tr2.
Proof.
  induction tr1 as [|e tr1 IH]; [done|]. destruct e; simpl; by rewrite IH.
Qed.

Lemma gc_enqueued_app tr1 tr2 :
  gc_enqueued (tr1 ++ tr2) = gc_enqueued tr1 ++ gc_enqueued tr2.
Proof.
  induction tr1 as [|e tr1 IH]; [done|]. destruct e; simpl; by rewrite IH.
Qed.

Lemma enqueued_gc_events r it : enqueued (gc_events r it) = [].
Proof. unfold gc_events. by destruct (gc_enabled r), (category_id it). Qed.

Lemma enqueued_lc_events L r piece : enqueued (lc_events L r piece) = [].
Proof.
  unfold lc_events. by destruct (lc_enabled r), (lc_embedding L piece).
Qed.

Lemma enqueued_window_events L r it ws :
  enqueued (concat (map (window_events L r it) ws)) = ws.
Proof.
  induction ws as [|w ws IH]; [done|].
  simpl. rewrite !enqueued_app, enqueued_gc_events, enqueued_lc_events, IH. done.
Qed.

(** ** The window loop *)

Section Segmentation.
Variables (L : library) (r : AudioReader) (it : item).

Lemma gc_push_run tr :
  (gc_enabled r = true -> category_id it <> None) ->
  gc_push r it tr = (tr ++ gc_events r it, Ret tt).
Proof.
  unfold gc_push, gc_events. intros Hid.
  destruct (gc_enabled r).
  - destruct (category_id it); [done|]. by destruct Hid.
  - unfold ret. by rewrite app_nil_r.
Qed.

Lemma lc_push_run piece tr :
  (lc_enabled r = true -> exists e, lc_embedding L piece = Ok e) ->
  lc_push L r piece tr = (tr ++ lc_events L r piece, Ret tt).
Proof.
  unfold lc_push, lc_events. intros He.
  destruct (lc_enabled r).
  - destruct He as [e He]; [done|]. by rewrite He.
  - unfold ret. by rewrite app_nil_r.
Qed.

Lemma window_count_step len rf ss :
  0 < ss -> len > rf + ss ->
  window_count len rf ss = S (window_count (len - ss) rf ss).
Proof.
  intros Hss Hlen. unfold window_count.
  destruct (Z.gtb_spec len (rf + ss)); [|lia].
  replace (len - rf - 1) with ((len - ss - rf - 1) + 1 * ss) by lia.
  rewrite Z.div_add by lia.
  destruct (Z.gtb_spec (len - ss) (rf + ss)).
  - rewrite Z2Nat.inj_add; [|apply Z.div_pos; lia|lia].
    change (Z.to_nat 1) with 1%nat. lia.
  - rewrite Z.div_small by lia. done.
Qed.

Lemma window_count_stop len rf ss : len <= rf + ss -> window_count len rf ss = 0%nat.
Proof. intros H. unfold window_count. by destruct (Z.gtb_spec len (rf + ss)); [lia|]. Qed.

Lemma windows_of_step rf ss a :
  0 <= rf -> 0 < ss -> Z.of_nat (length a) > rf + ss ->
  windows_of rf ss a
  = take (Z.to_nat (rf + ss)) a :: windows_of rf ss (drop (Z.to_nat ss) a).
Proof.
  intros Hrf Hss Hlen. unfold windows_of.
  rewrite (window_count_step _ _ _ Hss Hlen).
  rewrite length_drop.
  replace (Z.of_nat (length a - Z.to_nat ss)) with (Z.of_nat (length a) - ss) by lia.
  cbn [seq map]. f_equal.
  rewrite <- seq_shift, map_map. apply map_ext. intros k.
  by rewrite drop_drop.
Qed.

Lemma windows_of_stop rf ss a :
  Z.of_nat (length a) <= rf + ss -> windows_of rf ss a = [].
Proof. intros H. unfold windows_of. by rewrite window_count_stop. Qed.

(** With the feeds in order and enough fuel for the length of the
    waveform, the loop ends and has pushed, window after window, the
    sample window, the category id and the embedding. *)
Lemma window_loop_run rf ss : 0 <= rf -> 0 < ss ->
  forall fuel a tr,
    (length a < fuel)%nat ->
    feeds_ok L r it (windows_of rf ss a) ->
    window_loop fuel L r it (rf + ss) ss a tr
    = (tr ++ concat (map (window_events L r it) (windows_of rf ss a)), Ret tt).
Proof.
  intros Hrf Hss. induction fuel as [|fuel IH]; intros a tr Hfuel [Hgc Hlc]; [lia|].
  cbn [window_loop].
  destruct (Z.gtb_spec (Z.of_nat (length a)) (rf + ss)) as [Hgt|Hle].
  - rewrite windows_of_step in * by lia.
    rewrite slice_to_nonneg, slice_from_nonneg by lia.
    set (piece := take (Z.to_nat (rf + ss)) a) in *.
    unfold bind at 1. unfold emit at 1.
    unfold bind at 1. rewrite gc_push_run by done.
    unfold bind at 1. rewrite lc_push_run.
    2:{ intros Hlc'. specialize (Hlc Hlc'). by inversion Hlc. }
    rewrite IH.
    + cbn [map concat]. unfold window_events.
      f_equal. rewrite <- !app_assoc. cbn [app]. by rewrite <- !app_assoc.
    + rewrite length_drop. lia.
    + split; [done|]. intros Hlc'. specialize (Hlc Hlc'). by inversion Hlc.
  - rewrite windows_of_stop by lia. unfold ret. simpl. by rewrite app_nil_r.
Qed.

Lemma length_windows_of rf ss a :
  length (windows_of rf ss a) = window_count (Z.of_nat (length a)) rf ss.
Proof. unfold windows_of. by rewrite length_map, length_seq. Qed.

Lemma lookup_windows_of rf ss a k w :
  windows_of rf ss a !! k = Some w ->
  (k < window_count (Z.of_nat (length a)) rf ss)%nat
  /\ w = take (Z.to_nat (rf + ss)) (drop (k * Z.to_nat ss) a).
Proof.
  unfold windows_of. intros H.
  apply list_lookup_fmap_Some in H as (k' & Hw & Hk).
  apply lookup_seq in Hk as [-> Hk]. simpl in Hw. by split.
Qed.

Lemma window_count_bound len rf ss k :
  0 <= rf -> 0 < ss -> (k < window_count len rf ss)%nat ->
  Z.of_nat k * ss + rf + ss < len.
Proof.
  intros Hrf Hss. unfold window_count.
  destruct (Z.gtb_spec len (rf + ss)); [|lia].
  intros Hk.
  assert (Z.of_nat k + 1 <= (len - rf - 1) / ss) by lia.
  assert (ss * ((len - rf - 1) / ss) <= len - rf - 1)
    by (apply Z.mul_div_le; lia).
  nia.
Qed.
End Segmentation.

Lemma feeds_feeds_ok L r it ws : feeds L r it -> feeds_ok L r it ws.
Proof.
  intros [Hgc Hlc]. split; [done|]. intros H. apply Forall_forall. intros w _.
  by apply Hlc.
Qed.

(** In windowed mode the waveform handed to the queues is cut as
    [windows_of] says, and each window is followed by its id and its
    embedding when those queues are enabled. *)
Lemma enqueue_file_windowed fuel L r it a tr ss :
  sample_size r = Some ss -> 0 < ss -> 0 <= receptive_field r ->
  (length a < fuel)%nat -> feeds L r it ->
  enqueue_file fuel L r it a tr
  = (tr ++ concat (map (window_events L r it)
                       (windows_of (receptive_field r) ss a)), Ret tt).
Proof.
  intros Hss Hpos Hrf Hfuel Hfeeds. unfold enqueue_file. rewrite Hss.
  destruct (Z.eqb_spec ss 0); [lia|].
  apply window_loop_run; try done. by apply feeds_feeds_ok.
Qed.

(** X21: with both conditionings enabled and feeds that do not fail,
    windowed mode serves the three queues in step: the k-th id is the id
    of the file and the k-th embedding is the embedding of the k-th
    window. *)
Lemma windowed_queues_aligned fuel L r it a ss id :
  sample_size r = Some ss -> 0 < ss -> 0 <= receptive_field r ->
  (length a < fuel)%nat ->
  gc_enabled r = true -> lc_enabled r = true ->
  category_id it = Some id ->
  (forall piece, exists e, lc_embedding L piece = Ok e) ->
  exists tr,
    enqueue_file fuel L r it a [] = (tr, Ret tt)
    /\ enqueued tr = windows_of (receptive_field r) ss a
    /\ gc_enqueued tr = map (fun _ => id) (enqueued tr)
    /\ map Ok (lc_enqueued tr) = map (lc_embedding L) (enqueued tr).
Proof.
  intros Hss Hpos Hrf Hfuel Hgc Hlc Hid Hemb.
  eexists. split.
  { apply (enqueue_file_windowed fuel L r it a [] ss); try done.
    split; [by rewrite Hid | done]. }
  rewrite app_nil_l, enqueued_window_events. split; [done|].
  induction (windows_of (receptive_field r) ss a) as [|w ws [IHgc IHlc]];
    [done|].
  cbn [map concat]. unfold window_events at 1 3, gc_events, lc_events.
  rewrite Hgc, Hlc, Hid. destruct (Hemb w) as [e He]. rewrite He.
  cbn [app gc_enqueued lc_enqueued map]. by rewrite IHgc, IHlc.
Qed.

(** C1 (as the code has it): for a padded waveform of length [len], the
    segmentation loop emits [(len - rf - 1) / ss] windows, that is the
    quotient of [len - rf - ss] by [ss] rounded up, when [len > rf + ss],
    and none otherwise. *)
Theorem segmentation_window_count (fuel : nat) (L : library) (r : AudioReader)
    (it : item) (a : list Q) (ss : Z) :
  sample_size r = Some ss -> 0 < ss -> 0 <= receptive_field r ->
  (length a < fuel)%nat -> feeds L r it ->
  let len := Z.of_nat (length a) in
  let rf := receptive_field r in
  exists tr,
    enqueue_file fuel L r it a [] = (tr, Ret tt)
    /\ Z.of_nat (length (enqueued tr))
       = (if len >? rf + ss then (len - rf - 1) / ss else 0)
    /\ (len > rf + ss -> (len - rf - 1) / ss = (len - rf - ss + (ss - 1)) / ss).
Proof.
  intros Hss Hpos Hrf Hfuel Hfeeds len rf.
  eexists. split; [by apply (enqueue_file_windowed fuel L r it a [] ss)|].
  split.
  - rewrite app_nil_l, enqueued_window_events, length_windows_of.
    unfold window_count. fold len rf.
    destruct (Z.gtb_spec len (rf + ss)); [|done].
    rewrite Z2Nat.id; [done|]. apply Z.div_pos; lia.
  - intros _. f_equal. lia.
Qed.

Lemma segmentation_window_count_witness :
  exists tr,
    enqueue_file 8 example_library (reader (Some 2) 1 None false false)
      {| audio := []; filename := "p1_1.wav"; category_id := Some 1 |}
      [0; 1; 2; 3; 4; 5; 6]%Q [] = (tr, Ret tt)
    /\ Z.of_nat (length (enqueued tr)) = 2.
Proof.
  destruct (segmentation_window_count 8 example_library
              (reader (Some 2) 1 None false false)
              {| audio := []; filename := "p1_1.wav"; category_id := Some 1 |}
              [0; 1; 2; 3; 4; 5; 6]%Q 2)
    as (tr & Hrun & Hcount & _).
  - reflexivity.
  - lia.
  - simpl; lia.
  - simpl; lia.
  - split; simpl; [discriminate | discriminate].
  - exists tr. split; [exact Hrun | exact Hcount].
Defined.

(** C1 as stated fails: a padded waveform of 3 samples with [rf = 0] and
    [ss = 2] is longer than one window, so one window is emitted, while
    [(3 - 0 - 2) / 2] is 0. *)
Lemma segmentation_count_not_floor :
  exists tr,
    enqueue_file 4 example_library (reader (Some 2) 0 None false false)
      {| audio := []; filename := "p1_1.wav"; category_id := Some 1 |}
      [1; 2; 3]%Q [] = (tr, Ret tt)
    /\ enqueued tr = [[1; 2]%Q]
    /\ 3 > 0 + 2
    /\ Z.of_nat (length (enqueued tr)) <> (3 - 0 - 2) / 2.
Proof.
  eexists. split; [vm_compute; reflexivity|].
  split; [reflexivity|]. split; [lia|]. vm_compute. discriminate.
Qed.

(** C6: in windowed mode every emitted window has [rf + ss] samples, and
    the first [rf] samples of a window are the last [rf] samples of the
    window before it (what is left of it past the hop of [ss]). *)
Theorem segmentation_windows_overlap (fuel : nat) (L : library)
    (r : AudioReader) (it : item) (a : list Q) (ss : Z) :
  sample_size r = Some ss -> 0 < ss -> 0 <= receptive_field r ->
  (length a < fuel)%nat -> feeds L r it ->
  let rf := receptive_field r in
  exists tr,
    enqueue_file fuel L r it a [] = (tr, Ret tt)
    /\ Forall (fun w => Z.of_nat (length w) = rf + ss) (enqueued tr)
    /\ (forall k w w',
          enqueued tr !! k = Some w -> enqueued tr !! S k = Some w' ->
          take (Z.to_nat rf) w' = drop (Z.to_nat ss) w
          /\ length (drop (Z.to_nat ss) w) = Z.to_nat rf).
Proof.
  intros Hss Hpos Hrf Hfuel Hfeeds rf.
  eexists. split; [by apply (enqueue_file_windowed fuel L r it a [] ss)|].
  rewrite app_nil_l, enqueued_window_events. fold rf.
  assert (Hlen : forall k w, windows_of rf ss a !! k = Some w ->
                   length w = Z.to_nat (rf + ss)).
  { intros k w Hw. apply lookup_windows_of in Hw as [Hk ->].
    pose proof (window_count_bound _ _ _ _ Hrf Hpos Hk).
    rewrite length_take, length_drop. nia. }
  split.
  - apply Forall_lookup. intros k w Hw. rewrite (Hlen k w Hw). lia.
  - intros k w w' Hw Hw'.
    pose proof (Hlen k w Hw) as Hl.
    apply lookup_windows_of in Hw as [Hk ->].
    apply lookup_windows_of in Hw' as [Hk' ->].
    split.
    + rewrite take_take.
      replace (Z.to_nat rf `min` Z.to_nat (rf + ss))%nat with (Z.to_nat rf) by lia.
      replace (Z.to_nat (rf + ss)) with (Z.to_nat ss + Z.to_nat rf)%nat by lia.
      rewrite <- take_drop_commute, drop_drop. do 2 f_equal. lia.
    + rewrite length_drop, Hl. lia.
Qed.

Lemma segmentation_windows_overlap_witness :
  exists tr,
    enqueue_file 8 example_library (reader (Some 2) 1 None false false)
      {| audio := []; filename := "p1_1.wav"; category_id := Some 1 |}
      [0; 1; 2; 3; 4; 5; 6]%Q [] = (tr, Ret tt)
    /\ Forall (fun w => Z.of_nat (length w) = 1 + 2) (enqueued tr)
    /\ (forall k w w',
          enqueued tr !! k = Some w -> enqueued tr !! S k = Some w' ->
          take (Z.to_nat 1) w' = drop (Z.to_nat 2) w
          /\ length (drop (Z.to_nat 2) w) = Z.to_nat 1).
Proof.
  apply (segmentation_windows_overlap 8 example_library
           (reader (Some 2) 1 None false false)
           {| audio := []; filename := "p1_1.wav"; category_id := Some 1 |}
           [0; 1; 2; 3; 4; 5; 6]%Q 2).
  - reflexivity.
  - lia.
  - simpl; lia.
  - simpl; lia.
  - split; simpl; discriminate.
Defined.

Example windows_of_ramp :
  windows_of 1 2 [0; 1; 2; 3; 4; 5; 6]%Q = [[0; 1; 2]; [2; 3; 4]]%Q.
Proof. reflexivity. Qed.

(** ** Whole-file mode *)

Lemma gc_push_trace r it tr :
  exists evs, fst (gc_push r it tr) = tr ++ evs
    /\ enqueued evs = [] /\ lc_enqueued evs = [].
Proof.
  unfold gc_push. destruct (gc_enabled r); [destruct (category_id it)|].
  - by exists [Gc_enqueue z].
  - exists []. by rewrite app_nil_r.
  - exists []. by rewrite app_nil_r.
Qed.

Lemma whole_file_trace r it a tr :
  exists evs,
    fst ((emit (Enqueue a) ;;; gc_push r it) tr) = tr ++ Enqueue a :: evs
    /\ enqueued evs = [] /\ lc_enqueued evs = [].
Proof.
  unfold bind, emit.
  destruct (gc_push_trace r it (tr ++ [Enqueue a])) as (evs & Htr & He & Hl).
  exists evs. split; [|done].
  destruct (gc_push r it (tr ++ [Enqueue a])) as [tr' [[]| |]];
    simpl in *; by rewrite Htr, <- app_assoc.
Qed.

(** C9: with [sample_size = 0] the worker takes the branch of whole-file
    mode: it does to every file what it does with [sample_size = None],
    and the padded waveform goes to the sample queue once, whole. *)
Theorem sample_size_zero_is_whole_file (fuel : nat) (L : library)
    (r : AudioReader) (it : item) :
  (forall tr,
     process_file fuel L (with_sample_size (Some 0) r) it tr
     = process_file fuel L (with_sample_size None r) it tr)
  /\ (forall a tr,
        enqueue_file fuel L (with_sample_size (Some 0) r) it a tr
        = (emit (Enqueue a) ;;; gc_push r it) tr)
  /\ (forall a tr,
        enqueued (fst (enqueue_file fuel L (with_sample_size (Some 0) r) it a tr))
        = enqueued tr ++ [a]).
Proof.
  split; [|split].
  - intros tr. reflexivity.
  - intros a tr. reflexivity.
  - intros a tr.
    change (enqueue_file fuel L (with_sample_size (Some 0) r) it a tr)
      with ((emit (Enqueue a) ;;; gc_push r it) tr).
    destruct (whole_file_trace r it a tr) as (evs & -> & He & _).
    rewrite enqueued_app. simpl. by rewrite He.
Qed.

Example sample_size_zero_run :
  process_file 0 example_library (reader (Some 0) 2 None true true)
    {| audio := [5; 6; 7]%Q; filename := "p3_1.wav"; category_id := Some 3 |} []
  = ([Enqueue [0; 0; 5; 6; 7]%Q; Gc_enqueue 3], Ret tt).
Proof. reflexivity. Qed.




(** The same in whole-file mode for every reader, waveform and trace. *)
Lemma whole_file_mode_skips_lc_enqueue (fuel : nat) (L : library)
    (r : AudioReader) (it : item) (a : list Q) (tr : list event) :
  enqueued (fst (enqueue_file fuel L (with_sample_size None r) it a tr))
  = enqueued tr ++ [a]
  /\ lc_enqueued (fst (enqueue_file fuel L (with_sample_size None r) it a tr))
     = lc_enqueued tr.
Proof.
  change (enqueue_file fuel L (with_sample_size None r) it a tr)
    with ((emit (Enqueue a) ;;; gc_push r it) tr).
  destruct (whole_file_trace r it a tr) as (evs & -> & He & Hl).
  rewrite enqueued_app, lc_enqueued_app. simpl. rewrite He, Hl.
  by rewrite app_nil_r.
Qed.

Example whole_file_mode_lc_enabled_run :
  process_file 0 example_library (reader None 2 None true true)
    {| audio := [5; 6; 7]%Q; filename := "p3_1.wav"; category_id := Some 3 |} []
  = ([Enqueue [0; 0; 5; 6; 7]%Q; Gc_enqueue 3], Ret tt).
Proof. reflexivity. Qed.

(** In windowed mode the three queues are served window by window, in the
    order samples, id, embedding. *)
Example windowed_mode_lc_enabled_run :
  process_file 8 example_library (reader (Some 2) 1 None true true)
    {| audio := [1; 2; 3; 4; 5; 6]%Q; filename := "p3_1.wav";
       category_id := Some 3 |} []
  = ([Enqueue [0; 1; 2]%Q; Gc_enqueue 3;
      Lc_enqueue [[1; 1; 0; 1; 0; 1; 1; 1]; [0; 0; 0; 0; 0; 0; 0; 0];
                  [0; 1; 0; 0; 1; 0; 0; 1]]%Q;
      Enqueue [2; 3; 4]%Q; Gc_enqueue 3;
      Lc_enqueue [[1; 1; 0; 1; 0; 1; 1; 1]; [0; 0; 0; 0; 0; 0; 0; 0];
                  [0; 1; 0; 0; 1; 0; 0; 1]]%Q], Ret tt).
Proof. vm_compute. reflexivity. Qed.

(** ** Silence trimming *)

Lemma Qgt_bool_true x y : Qgt_bool x y = true <-> (y < x)%Q.
Proof.
  unfold Qgt_bool. rewrite negb_true_iff.
  split.
  - intros H. apply Qnot_le_lt. intros Hle. apply Qle_bool_iff in Hle. congruence.
  - intros H. destruct (Qle_bool x y) eqn:E; [|done].
    apply Qle_bool_iff in E. by apply Qlt_not_le in H.
Qed.

Lemma Qgt_bool_false x y : Qgt_bool x y = false <-> ~ (y < x)%Q.
Proof.
  rewrite <- Qgt_bool_true. by destruct (Qgt_bool x y).
Qed.

Lemma np_nonzero_from_all_false i mask :
  Forall (fun b => b = false) mask -> np_nonzero_from i mask = [].
Proof.
  intros H. revert i. induction H as [|b mask -> _ IH]; intros i; [done|].
  simpl. apply IH.
Qed.

Lemma np_nonzero_from_all_true i mask :
  Forall (fun b => b = true) mask -> np_nonzero_from i mask = seq i (length mask).
Proof.
  intros H. revert i. induction H as [|b mask -> _ IH]; intros i; [done|].
  simpl. by rewrite IH.
Qed.

(** No frame above the threshold: nothing is left. *)
Lemma trim_silence_all_silent L a thr frame_length :
  Forall (fun e => ~ (thr < e)%Q) (rmse L a (clamp_frame_length a frame_length)) ->
  trim_silence L a thr frame_length = [].
Proof.
  intros H. unfold trim_silence. fold (clamp_frame_length a frame_length).
  rewrite (np_nonzero_from_all_false 0).
  - cbn [map]. by rewrite (slice_nonneg 0 0 a); [|lia|lia].
  - apply Forall_fmap. eapply Forall_impl; [exact H|].
    intros e He. by apply Qgt_bool_false.
Qed.

Lemma last_map_seq (f : nat -> Z) n :
  last (map f (seq 0 (S n))) = Some (f n).
Proof.
  rewrite seq_S, map_app. simpl. apply last_snoc.
Qed.

(** C5 (what the code does when every frame is above the threshold): the
    slice ends where the last frame starts, so of a waveform with [n]
    frames the first [(n - 1) * 512] samples are kept and the rest is
    dropped. *)
Theorem trim_silence_drops_last_loud_frame (L : library) (a : list Q)
    (thr : Q) (frame_length : Z) :
  let energy := rmse L a (clamp_frame_length a frame_length) in
  energy <> [] ->
  Forall (fun e => (thr < e)%Q) energy ->
  trim_silence L a thr frame_length = take ((length energy - 1) * 512) a.
Proof.
  intros energy Hne Hall. unfold trim_silence.
  fold (clamp_frame_length a frame_length). fold energy.
  rewrite (np_nonzero_from_all_true 0).
  2:{ apply Forall_fmap. eapply Forall_impl; [exact Hall|].
      intros e He. by apply Qgt_bool_true. }
  rewrite length_map.
  destruct (length energy) as [|n] eqn:Hn.
  { destruct energy; [congruence | discriminate]. }
  rewrite last_map_seq. cbn [seq map]. simpl (default _ _).
  unfold hop_length. rewrite slice_nonneg by lia.
  change (Z.to_nat (Z.of_nat 0 * 512)) with 0%nat. rewrite drop_0.
  f_equal. lia.
Qed.

(** A waveform of 100 unit samples has one frame, of energy 1: it is above
    the threshold 0.1, and nothing of the waveform is left. *)
Lemma trim_silence_drops_last_loud_frame_witness :
  trim_silence example_library (replicate 100 1%Q) (1 # 10)%Q 2048
  = take ((1 - 1) * 512) (replicate 100 1%Q)
  /\ trim_silence example_library (replicate 100 1%Q) (1 # 10)%Q 2048 = [].
Proof.
  assert (H : trim_silence example_library (replicate 100 1%Q) (1 # 10)%Q 2048
              = take ((1 - 1) * 512) (replicate 100 1%Q)).
  { apply (trim_silence_drops_last_loud_frame example_library
             (replicate 100 1%Q) (1 # 10)%Q 2048).
    - vm_compute. discriminate.
    - vm_compute. repeat constructor. }
  split; [exact H | rewrite H; reflexivity].
Defined.

(** 600 unit samples have two frames, both above the threshold; the last
    88 samples are cut. *)
Example trim_silence_600_unit_samples :
  length (trim_silence example_library (replicate 600 1%Q) (1 # 10)%Q 2048)
  = 512%nat.
Proof. vm_compute. reflexivity. Qed.

(** ** Files that are silence only *)

(** With silence trimming on, the body of the loop is [trim_silence]
    followed by [after_trim]. *)
Lemma process_file_after_trim fuel L r it thr tr :
  silence_threshold r = Some thr ->
  process_file fuel L r it tr
  = after_trim fuel L r it (trim_silence L (audio it) thr 2048) tr.
Proof.
  intros Hthr. unfold process_file, preprocess, after_trim. rewrite Hthr.
  unfold bind. by destruct (_ =? _)%nat.
Qed.




(** A waveform of three unit samples has one frame, of energy 1; under a
    threshold of 2 trimming leaves nothing of it. *)
Example trim_silence_below_threshold :
  trim_silence example_library [1; 1; 1]%Q 2%Q 2048 = [].
Proof. reflexivity. Qed.

(** ** The conditioning embedding *)

Lemma np_put_in_range ind : forall a v,
  Forall (fun i => (i < length a)%nat) ind ->
  np_put a ind v = Ok (put_all a ind v).
Proof.
  induction ind as [|i ind IH]; intros a v H; [done|].
  inversion H as [|? ? Hi Hrest]; subst. cbn [np_put].
  destruct (Nat.ltb_spec i (length a)); [|lia].
  rewrite IH; [done|]. eapply Forall_impl; [exact Hrest|].
  intros j Hj. simpl in Hj. by rewrite length_insert.
Qed.

Lemma length_put_all ind : forall a v, length (put_all a ind v) = length a.
Proof.
  induction ind as [|i ind IH]; intros a v; [done|].
  unfold put_all in *. simpl. by rewrite IH, length_insert.
Qed.

Lemma put_all_lookup_other ind : forall a v j,
  j ∉ ind -> put_all a ind v !! j = a !! j.
Proof.
  induction ind as [|i ind IH]; intros a v j Hj; [done|].
  apply not_elem_of_cons in Hj as [Hne Hj].
  unfold put_all in *. simpl. rewrite IH by done.
  by apply list_lookup_insert_ne.
Qed.

Lemma put_all_lookup_put ind : forall a v j,
  j ∈ ind -> (j < length a)%nat -> put_all a ind v !! j = Some v.
Proof.
  induction ind as [|i ind IH]; intros a v j Hj Hlen.
  - by apply elem_of_nil in Hj.
  - change (put_all a (i :: ind) v) with (put_all (<[i:=v]> a) ind v).
    destruct (decide (j ∈ ind)) as [Hin|Hnin].
    + apply IH; [done|]. by rewrite length_insert.
    + apply elem_of_cons in Hj as [->|Hj]; [|done].
      rewrite put_all_lookup_other by done.
      by apply list_lookup_insert_eq.
Qed.

(** The count of [np.nonzero] does not depend on where the index starts. *)
Lemma length_np_nonzero_from mask : forall i j,
  length (np_nonzero_from i mask) = length (np_nonzero_from j mask).
Proof.
  induction mask as [|b mask IH]; intros i j; [done|].
  simpl. destruct b; simpl; by rewrite (IH (S i) (S j)).
Qed.

Lemma nonzero_cnt_cons x a :
  nonzero_cnt (x :: a) = ((if is_nonzero x then 1 else 0) + nonzero_cnt a)%nat.
Proof.
  unfold nonzero_cnt, np_nonzero. simpl.
  destruct (is_nonzero x); simpl; by rewrite (length_np_nonzero_from _ 1 0)%nat.
Qed.

Lemma nonzero_cnt_replicate n : nonzero_cnt (replicate n 0%Q) = 0%nat.
Proof.
  induction n as [|n IH]; [done|]. simpl. by rewrite nonzero_cnt_cons, IH.
Qed.

Lemma nonzero_cnt_le_length a : (nonzero_cnt a <= length a)%nat.
Proof.
  induction a as [|x a IH]; [done|]. rewrite nonzero_cnt_cons. simpl.
  destruct (is_nonzero x); lia.
Qed.

Lemma nonzero_cnt_insert a : forall i,
  a !! i = Some 0%Q -> nonzero_cnt (<[i:=1%Q]> a) = S (nonzero_cnt a).
Proof.
  induction a as [|x a IH]; intros i Hi; [done|].
  destruct i as [|i]; simpl in *.
  - injection Hi as ->. by rewrite !nonzero_cnt_cons.
  - rewrite !nonzero_cnt_cons, (IH i Hi). lia.
Qed.

Lemma nonzero_cnt_put_all ind : forall a,
  NoDup ind -> Forall (fun i => a !! i = Some 0%Q) ind ->
  nonzero_cnt (put_all a ind 1%Q) = (nonzero_cnt a + length ind)%nat.
Proof.
  induction ind as [|i ind IH]; intros a Hnd Hz.
  - simpl. lia.
  - inversion Hnd as [|? ? Hni Hnd']; subst.
    inversion Hz as [|? ? Hi Hz']; subst.
    change (put_all a (i :: ind) 1%Q) with (put_all (<[i:=1%Q]> a) ind 1%Q).
    rewrite IH; [|done|].
    + rewrite (nonzero_cnt_insert a i Hi). simpl. lia.
    + apply Forall_forall. intros j Hj.
      rewrite list_lookup_insert_ne by (intros ->; done).
      by eapply Forall_forall in Hz'.
Qed.

Lemma is_nonzero_true m : is_nonzero m = true <-> ~ (m == 0)%Q.
Proof.
  unfold is_nonzero. rewrite negb_true_iff. split.
  - intros H Heq. apply Qeq_bool_iff in Heq. congruence.
  - intros H. destruct (Qeq_bool m 0) eqn:E; [|done].
    apply Qeq_bool_iff in E. done.
Qed.

Lemma elem_of_np_nonzero_from mask : forall i x,
  x ∈ np_nonzero_from i mask ->
  exists d, x = (i + d)%nat /\ mask !! d = Some true.
Proof.
  induction mask as [|b mask IH]; intros i x Hx.
  - by apply elem_of_nil in Hx.
  - simpl in Hx. destruct b.
    + apply elem_of_cons in Hx as [->|Hx].
      * exists 0%nat. split; [lia | done].
      * destruct (IH _ _ Hx) as (d & -> & Hd). exists (S d). split; [lia | done].
    + destruct (IH _ _ Hx) as (d & -> & Hd). exists (S d). split; [lia | done].
Qed.

Lemma NoDup_np_nonzero_from mask : forall i, NoDup (np_nonzero_from i mask).
Proof.
  induction mask as [|b mask IH]; intros i; [constructor|].
  simpl. destruct b; [|apply IH].
  constructor; [|apply IH].
  intros Hi. apply elem_of_np_nonzero_from in Hi as (d & Hd & _). lia.
Qed.

(** A duplicate-free list of indices that holds every nonzero position is
    at least as long as the count of [np.nonzero]. *)
Lemma nonzero_cnt_le_cover (a : list Q) (cover : list nat) :
  (forall j m, a !! j = Some m -> ~ (m == 0)%Q -> j ∈ cover) ->
  (nonzero_cnt a <= length cover)%nat.
Proof.
  intros Hcover. unfold nonzero_cnt, np_nonzero.
  apply submseteq_length, NoDup_submseteq; [apply NoDup_np_nonzero_from|].
  intros x Hx. apply elem_of_np_nonzero_from in Hx as (d & -> & Hd).
  rewrite list_lookup_fmap in Hd.
  destruct (a !! d) as [m|] eqn:Hm; [|done].
  simpl in Hd. injection Hd as Hd.
  apply (Hcover d m); [done|]. by apply is_nonzero_true.
Qed.

Lemma nonzero_cnt_all_zero (a : list Q) :
  Forall (fun m => (m == 0)%Q) a -> nonzero_cnt a = 0%nat.
Proof.
  intros H. pose proof (nonzero_cnt_le_cover a []) as Hc. simpl in Hc.
  enough (nonzero_cnt a <= 0)%nat by lia. apply Hc.
  intros j m Hj Hm. destruct Hm.
  eapply Forall_lookup_1 in H; [|exact Hj]. done.
Qed.

(** A list of [n] distinct indices below [n] holds them all. *)
Lemma all_indices_listed (p : list nat) (n : nat) :
  length p = n -> Forall (fun i => (i < n)%nat) p -> NoDup p ->
  forall x, (x < n)%nat -> x ∈ p.
Proof.
  intros Hlen Hrange Hnd x Hx.
  assert (Hsub : p ⊆+ seq 0 n).
  { apply NoDup_submseteq; [done|]. intros y Hy.
    apply elem_of_seq. eapply Forall_forall in Hrange; [|exact Hy]. lia. }
  apply submseteq_length_Permutation in Hsub; [|by rewrite length_seq, Hlen].
  rewrite Hsub. apply elem_of_seq. lia.
Qed.

Lemma slice_from_neg {A} (i : Z) (l : list A) :
  i < 0 -> slice_from i l = drop (length l - Z.to_nat (- i)) l.
Proof.
  intros Hi. unfold slice_from, slice_bound.
  destruct (Z.ltb_spec i 0); [|lia]. f_equal. lia.
Qed.

Lemma is_argpartition_true (a : list Q) (k : nat) (p : list nat) :
  is_argpartition a k p = true ->
  length p = length a
  /\ Forall (fun i => (i < length a)%nat) p
  /\ NoDup p
  /\ (forall i j, i ∈ take k p -> j ∈ drop k p ->
        (nth i a 0 <= nth j a 0)%Q).
Proof.
  unfold is_argpartition. rewrite !andb_true_iff.
  intros [[[Hlen Hrange] Hnd] Hord]. split; [|split; [|split]].
  - by apply Nat.eqb_eq.
  - apply Forall_forall. intros i Hi.
    rewrite forallb_forall in Hrange.
    apply list_elem_of_In, Hrange in Hi. by apply Nat.ltb_lt.
  - by apply bool_decide_eq_true in Hnd.
  - intros i j Hi Hj. rewrite forallb_forall in Hord.
    apply list_elem_of_In, Hord in Hi. rewrite forallb_forall in Hi.
    apply list_elem_of_In, Hi in Hj. by apply Qle_bool_iff.
Qed.

(** One row: the indices kept are those of the [min(nonzero_cnt, 6)]
    greatest magnitudes. *)
Lemma lc_row_spec (L : library) (mags : list Q) :
  Forall (fun m => (0 <= m)%Q) mags ->
  argpartition_ok L mags = true ->
  exists row, lc_row L mags = Ok row /\ embedding_row_ok mags row.
Proof.
  intros Hpos Hok. unfold lc_row. unfold argpartition_ok in Hok.
  pose proof (nonzero_cnt_le_length mags) as Hcnt.
  set (cnt := nonzero_cnt mags) in *.
  set (k := Z.min (Z.of_nat cnt) 6) in *.
  set (n := length mags) in *.
  revert Hok. destruct (Z.eqb_spec k 0) as [Hk|Hk]; intros Hok.
  - (* nothing is kept *)
    assert (Hcnt0 : cnt = 0%nat) by lia.
    exists (replicate n 0%Q). split; [done|].
    unfold embedding_row_ok. fold cnt.
    rewrite nonzero_cnt_replicate, length_replicate.
    split; [done|]. split.
    { intros j v Hj. apply lookup_replicate in Hj as [-> _]. by left. }
    split; [lia|]. split; [lia|]. split.
    { intros j m Hj. apply lookup_replicate in Hj as [Hj _]. discriminate. }
    intros _. apply Forall_forall. intros v Hv.
    by apply elem_of_replicate in Hv as [-> _].
  - (* the last [kn] indices of the partition are kept *)
    cbn [orb] in Hok.
    apply is_argpartition_true in Hok as (Hlen & Hrange & Hnd_p & Hord).
    set (p := argpartition L mags (- k)) in *.
    set (kn := Z.to_nat k) in *.
    assert (Hkn : (1 <= kn /\ kn <= cnt /\ kn <= 6 /\ kn = Nat.min cnt 6)%nat) by lia.
    rewrite slice_from_neg by lia. rewrite Hlen.
    replace (Z.to_nat (- - k)) with kn by lia.
    set (sel := drop (n - kn) p) in *.
    assert (Hp : take (n - kn) p ++ sel = p) by apply take_drop.
    assert (Hnd : NoDup sel).
    { pose proof Hnd_p as Hx. rewrite <- Hp in Hx.
      by apply NoDup_app in Hx as (_ & _ & ?). }
    assert (Hsel_range : Forall (fun i => (i < n)%nat) sel)
      by (by apply Forall_drop).
    assert (Hsel_len : length sel = kn)
      by (unfold sel; rewrite length_drop; lia).
    rewrite np_put_in_range by (by rewrite length_replicate).
    set (row := put_all (replicate n 0%Q) sel 1%Q).
    exists row. split; [done|].
    assert (Hrow_in : forall j, j ∈ sel -> row !! j = Some 1%Q).
    { intros j Hj. apply put_all_lookup_put; [done|].
      rewrite length_replicate. by eapply Forall_forall in Hsel_range. }
    assert (Hrow_out : forall j, j ∉ sel -> row !! j = replicate n 0%Q !! j).
    { intros j Hj. by apply put_all_lookup_other. }
    assert (Hone : forall j, row !! j = Some 1%Q -> j ∈ sel).
    { intros j Hj. destruct (decide (j ∈ sel)) as [|Hn]; [done|].
      rewrite (Hrow_out j Hn) in Hj.
      apply lookup_replicate in Hj as [Hj _]. discriminate. }
    assert (Hzero : forall j, row !! j = Some 0%Q -> j ∉ sel).
    { intros j Hj Hin. rewrite (Hrow_in j Hin) in Hj. discriminate. }
    assert (Hrest : forall j, (j < n)%nat -> j ∉ sel -> j ∈ take (n - kn) p).
    { intros j Hj Hn.
      pose proof (all_indices_listed p n Hlen Hrange Hnd_p j Hj) as Hall.
      rewrite <- Hp in Hall. apply elem_of_app in Hall as [|]; done. }
    assert (Hcount : nonzero_cnt row = kn).
    { unfold row. rewrite nonzero_cnt_put_all.
      - by rewrite nonzero_cnt_replicate, Hsel_len.
      - done.
      - eapply Forall_impl; [exact Hsel_range|].
        intros i Hi. by apply lookup_replicate_2. }
    unfold embedding_row_ok. fold cnt.
    split. { unfold row. by rewrite length_put_all, length_replicate. }
    split.
    { intros j v Hj. destruct (decide (j ∈ sel)) as [Hin|Hn].
      - rewrite (Hrow_in j Hin) in Hj. right. congruence.
      - rewrite (Hrow_out j Hn) in Hj.
        apply lookup_replicate in Hj as [-> _]. by left. }
    split; [lia|]. split; [lia|]. split.
    2:{ intros Hz. apply nonzero_cnt_all_zero in Hz. fold cnt in Hz. lia. }
    intros j m Hj Hm. apply Hone in Hj.
    assert (Hle : forall j' m', j' ∉ sel -> mags !! j' = Some m' -> (m' <= m)%Q).
    { intros j' m' Hn Hm'.
      assert (Hlt : (j' < n)%nat) by (by apply lookup_lt_Some in Hm').
      pose proof (Hord j' j (Hrest j' Hlt Hn) Hj) as Ho.
      by rewrite (nth_lookup_Some _ _ _ _ Hm'), (nth_lookup_Some _ _ _ _ Hm) in Ho. }
    split.
    + intros Hm0.
      apply list_elem_of_split in Hj as (l1 & l2 & Hsplit).
      assert (Hcover : (nonzero_cnt mags <= length (l1 ++ l2))%nat).
      { apply nonzero_cnt_le_cover. intros j' m' Hm' Hnz.
        destruct (decide (j' ∈ sel)) as [Hin|Hn].
        - rewrite Hsplit in Hin. apply elem_of_app in Hin as [Hin|Hin].
          { apply elem_of_app. by left. }
          apply elem_of_cons in Hin as [->|Hin].
          { rewrite Hm in Hm'. injection Hm' as <-. done. }
          apply elem_of_app. by right.
        - exfalso. apply Hnz.
          pose proof (Hle j' m' Hn Hm') as Hup.
          assert (Hlow : (0 <= m')%Q) by (by eapply Forall_lookup_1 in Hpos).
          rewrite Hm0 in Hup. by apply Qle_antisym. }
      fold cnt in Hcover. rewrite Hsplit in Hsel_len.
      rewrite length_app in *. simpl in Hsel_len. lia.
    + intros j' m' Hj' Hm'. apply (Hle j' m'); [by apply Hzero | done].
Qed.

Lemma lc_rows_spec (L : library) (magnitudes : list (list Q)) :
  Forall (Forall (fun m => (0 <= m)%Q)) magnitudes ->
  Forall (fun mags => argpartition_ok L mags = true) magnitudes ->
  exists emb,
    lc_rows L magnitudes = Ok emb /\ Forall2 embedding_row_ok magnitudes emb.
Proof.
  induction magnitudes as [|mags magnitudes IH]; intros Hpos Hok.
  - exists []. split; [done | constructor].
  - inversion Hpos as [|? ? Hpos1 Hpos2]; subst.
    inversion Hok as [|? ? Hok1 Hok2]; subst.
    destruct (lc_row_spec L mags Hpos1 Hok1) as (row & Hrow & Hspec).
    destruct (IH Hpos2 Hok2) as (emb & Hemb & Hall).
    exists (row :: emb). cbn [lc_rows]. rewrite Hrow, Hemb.
    split; [done | by constructor].
Qed.

(** C7: when the magnitudes are not negative and [np.argpartition] keeps
    its contract, the embedding of a window is built, and each of its rows
    has only entries 0.0 and 1.0, exactly [min(nonzero_cnt, 6)] of them
    (so at most 6) being 1.0; a 1.0 sits where the magnitude is nonzero
    and no magnitude at a 0.0 is greater; a frame of zeros gives a row of
    zeros. *)
Theorem embedding_keeps_largest_magnitudes (L : library) (piece : list Q) :
  let magnitudes := np_transpose (piptrack L piece) in
  Forall (Forall (fun m => (0 <= m)%Q)) magnitudes ->
  Forall (fun mags => argpartition_ok L mags = true) magnitudes ->
  exists emb,
    lc_embedding L piece = Ok emb
    /\ Forall2 embedding_row_ok magnitudes emb.
Proof.
  intros magnitudes Hpos Hok. unfold lc_embedding. fold magnitudes.
  by apply lc_rows_spec.
Qed.

Lemma embedding_keeps_largest_magnitudes_witness :
  exists emb,
    lc_embedding example_library [0; 1; 2]%Q = Ok emb
    /\ Forall2 embedding_row_ok
         (np_transpose (piptrack example_library [0; 1; 2]%Q)) emb.
Proof.
  apply (embedding_keeps_largest_magnitudes example_library [0; 1; 2]%Q).
  - vm_compute. repeat constructor; discriminate.
  - vm_compute. repeat constructor.
Defined.

Example embedding_of_example_magnitudes :
  lc_embedding example_library [0; 1; 2]%Q
  = Ok [[1; 1; 0; 1; 0; 1; 1; 1]; [0; 0; 0; 0; 0; 0; 0; 0];
        [0; 1; 0; 0; 1; 0; 0; 1]]%Q.
Proof. vm_compute. reflexivity. Qed.

(** * Further properties of the catalogue *)

Lemma not_all_have_id_true (files : list string) :
  not_all_have_id files = true <-> Exists (fun f => findall f = []) files.
Proof.
  induction files as [|f files IH]; simpl.
  - split; [done | intros H; inversion H].
  - destruct (findall f) as [|m ms] eqn:E.
    + split; [|done]. intros _. by constructor 1.
    + rewrite IH. split.
      * intros H. by constructor 2.
      * intros H. inversion H as [? ? Hf|]; subst; [congruence | done].
Qed.

Lemma category_id_of_None (f : string) :
  category_id_of f = None <-> findall f = [].
Proof.
  unfold category_id_of. by destruct (findall f) as [|[g1 g2] ms].
Qed.

(** X1: [not_all_have_id] answers [True] exactly when the list holds a
    file name for which [load_generic_audio] finds no category id. *)
Theorem not_all_have_id_iff_no_category (files : list string) :
  not_all_have_id files = true
  <-> exists f, f ∈ files /\ category_id_of f = None.
Proof.
  rewrite not_all_have_id_true, Exists_exists. split.
  - intros (f & Hin & Hf). exists f. split; [done|].
    by apply category_id_of_None.
  - intros (f & Hin & Hf). exists f. split; [done|].
    by apply category_id_of_None.
Qed.

Lemma has_id_or_missing (files : list string) :
  Forall has_id files \/ Exists (fun f => findall f = []) files.
Proof.
  destruct (not_all_have_id files) eqn:E.
  - right. by apply not_all_have_id_true.
  - left. by apply not_all_have_id_false.
Qed.

(** X2: [AudioReader.__init__] raises [ValueError] exactly when no file
    was found or global conditioning is enabled and a file name has no
    id; it raises nothing else; and the reader it returns carries the
    given settings, with no cardinality when global conditioning is
    off. *)
Theorem init_outcome (files : list string) (gc lc : bool) (rf : Z)
    (ss : option Z) (thr : option Q) :
  (AudioReader_init files gc lc rf ss thr = Raise ValueError
   <-> files = [] \/ (gc = true /\ Exists (fun f => findall f = []) files))
  /\ (forall e, AudioReader_init files gc lc rf ss thr = Raise e -> e = ValueError)
  /\ (forall r, AudioReader_init files gc lc rf ss thr = Ok r ->
        sample_size r = ss /\ receptive_field r = rf
        /\ silence_threshold r = thr /\ gc_enabled r = gc /\ lc_enabled r = lc
        /\ (gc = false -> gc_category_cardinality r = None)).
Proof.
  unfold AudioReader_init.
  destruct files as [|f files].
  { split; [|split]; [split; [by left | done] | by intros e [= <-] | done]. }
  destruct gc; cbn [andb].
  - destruct (not_all_have_id (f :: files)) eqn:Hn.
    + split; [|split]; [| by intros e [= <-] | done].
      split; [|done]. intros _. right. split; [done|].
      by apply not_all_have_id_true.
    + destruct (cardinality_loop_all_ids (f :: files) None None) as [[lo hi] Hv].
      { by apply not_all_have_id_false. }
      unfold get_category_cardinality. rewrite Hv.
      assert (Hhi : exists h, hi = Some h).
      { revert Hv. cbn [get_category_cardinality_loop].
        destruct (findall f) as [|[g1 g2] ms]; [done|]. intros Hv.
        apply not_all_have_id_false in Hn. inversion Hn; subst.
        destruct (cardinality_loop_bounds files (py_int g1) (py_int g1))
          as (lo' & hi' & Hrun & _); [done | lia |].
        rewrite Hrun in Hv. injection Hv as <- <-. by eexists. }
      destruct Hhi as [h ->].
      split; [|split]; [| done | by intros r [= <-]].
      split; [done|]. intros [|[_ Hex]]; [done|].
      apply not_all_have_id_true in Hex. congruence.
  - split; [|split]; [| done | by intros r [= <-]].
    split; [done|]. by intros [|[? _]].
Qed.

(** ** Digits and ids *)

Lemma span_digits_digits s d rest :
  span_digits s = (d, rest) -> all_digits d = true /\ s = (d ++ rest)%string.
Proof.
  revert d rest. induction s as [|c s IH]; intros d rest H; simpl in H.
  - by injection H as <- <-.
  - destruct (is_digit c) eqn:Hc.
    + destruct (span_digits s) as [d' r'] eqn:E. injection H as <- <-.
      destruct (IH d' r' eq_refl) as [Hd ->]. simpl. by rewrite Hc, Hd.
    + by injection H as <- <-.
Qed.

Lemma int_digits_nonneg s : forall acc,
  all_digits s = true -> 0 <= acc -> 0 <= int_digits acc s.
Proof.
  induction s as [|c s IH]; intros acc Hd Hacc; [done|].
  simpl in *. apply andb_true_iff in Hd as [Hc Hd].
  apply IH; [done|]. unfold is_digit in Hc.
  apply andb_true_iff in Hc as [Hlo Hhi].
  apply Nat.leb_le in Hlo. unfold digit_value. lia.
Qed.

Lemma match_here_groups s g1 g2 rest :
  match_here s = Some ((g1, g2), rest) ->
  all_digits g1 = true /\ all_digits g2 = true
  /\ g1 <> EmptyString /\ g2 <> EmptyString
  /\ s = ("p" ++ g1 ++ "_" ++ g2 ++ ".wav" ++ rest)%string.
Proof.
  unfold match_here. destruct s as [|c s1]; [done|].
  destruct (Ascii.eqb_spec c "p"%char) as [->|Hc].
  2:{ destruct c as [[] [] [] [] [] [] [] []]; try done. }
  destruct (span_digits s1) as [d1 s2] eqn:E1.
  destruct (is_empty d1) eqn:Hd1; [done|].
  destruct s2 as [|c2 s3]; [done|].
  destruct (Ascii.eqb_spec c2 "_"%char) as [->|Hc2].
  2:{ destruct c2 as [[] [] [] [] [] [] [] []]; try done. }
  destruct (span_digits s3) as [d2 s4] eqn:E2.
  destruct (is_empty d2) eqn:Hd2; [done|].
  destruct s4 as [|a1 [|a2 [|a3 [|a4 s5]]]]; try done;
    try (destruct a1 as [[] [] [] [] [] [] [] []]; done);
    try (destruct a1 as [[] [] [] [] [] [] [] []]; try done;
         destruct a2 as [[] [] [] [] [] [] [] []]; done);
    try (destruct a1 as [[] [] [] [] [] [] [] []]; try done;
         destruct a2 as [[] [] [] [] [] [] [] []]; try done;
         destruct a3 as [[] [] [] [] [] [] [] []]; done).
  destruct a1 as [[] [] [] [] [] [] [] []]; try done.
  destruct a2 as [[] [] [] [] [] [] [] []]; try done.
  destruct a3 as [[] [] [] [] [] [] [] []]; try done.
  destruct a4 as [[] [] [] [] [] [] [] []]; try done.
  intros [= <- <- <-].
  apply span_digits_digits in E1 as [H1 ->].
  apply span_digits_digits in E2 as [H2 ->].
  split; [done|]. split; [done|].
  split; [by destruct d1|]. split; [by destruct d2|].
  reflexivity.
Qed.

Lemma findall_from_first fuel : forall s g1 g2 ms,
  findall_from fuel s = (g1, g2) :: ms ->
  exists pre post,
    s = (pre ++ "p" ++ g1 ++ "_" ++ g2 ++ ".wav" ++ post)%string
    /\ all_digits g1 = true /\ all_digits g2 = true
    /\ g1 <> EmptyString /\ g2 <> EmptyString.
Proof.
  induction fuel as [|fuel IH]; intros s g1 g2 ms H; [done|].
  cbn [findall_from] in H.
  destruct (match_here s) as [[[h1 h2] rest]|] eqn:E.
  - injection H as -> -> _.
    apply match_here_groups in E as (H1 & H2 & N1 & N2 & ->).
    exists EmptyString, rest. done.
  - destruct s as [|c s']; [done|].
    destruct (IH s' g1 g2 ms H) as (pre & post & -> & Hrest).
    exists (String c pre), post. done.
Qed.

(** X3: when [category_id_of] finds an id, the file name holds
    [p<g1>_<g2>.wav] with two non-empty runs of digits, the id is the
    number [g1] reads as, and it is not negative. *)
Theorem category_id_sound (f : string) (id : Z) :
  category_id_of f = Some id ->
  exists pre g1 g2 post,
    f = (pre ++ "p" ++ g1 ++ "_" ++ g2 ++ ".wav" ++ post)%string
    /\ all_digits g1 = true /\ g1 <> EmptyString
    /\ all_digits g2 = true /\ g2 <> EmptyString
    /\ id = py_int g1 /\ 0 <= id.
Proof.
  unfold category_id_of, findall.
  destruct (findall_from (S (String.length f)) f) as [|[g1 g2] ms] eqn:E; [done|].
  intros [= <-].
  apply findall_from_first in E as (pre & post & -> & H1 & H2 & N1 & N2).
  exists pre, g1, g2, post. repeat split; try done.
  by apply int_digits_nonneg.
Qed.

Lemma category_id_sound_witness :
  exists pre g1 g2 post,
    "corpus/p12_004.wav"%string
    = (pre ++ "p" ++ g1 ++ "_" ++ g2 ++ ".wav" ++ post)%string
    /\ all_digits g1 = true /\ g1 <> EmptyString
    /\ all_digits g2 = true /\ g2 <> EmptyString
    /\ 12 = py_int g1 /\ 0 <= 12.
Proof.
  apply (category_id_sound "corpus/p12_004.wav" 12). reflexivity.
Defined.

Lemma span_digits_app d : forall rest,
  all_digits d = true ->
  match rest with
  | EmptyString => True
  | String c _ => is_digit c = false
  end ->
  span_digits (d ++ rest) = (d, rest).
Proof.
  induction d as [|c d IH]; intros rest Hd Hrest.
  - simpl. destruct rest as [|c r]; [done|]. simpl. by rewrite Hrest.
  - simpl in *. apply andb_true_iff in Hd as [Hc Hd].
    by rewrite Hc, (IH rest Hd Hrest).
Qed.

Lemma match_here_build d1 d2 rest :
  all_digits d1 = true -> d1 <> EmptyString ->
  all_digits d2 = true -> d2 <> EmptyString ->
  match_here ("p" ++ d1 ++ "_" ++ d2 ++ ".wav" ++ rest)
  = Some ((d1, d2), rest).
Proof.
  intros H1 N1 H2 N2. cbn [append match_here].
  rewrite (span_digits_app d1
             (String "_" (d2 ++ String "." (String "w" (String "a" (String "v" rest))))))
    by done.
  destruct d1 as [|c1 d1]; [done|]. cbn [is_empty].
  rewrite (span_digits_app d2 (String "." (String "w" (String "a" (String "v" rest)))))
    by done.
  destruct d2 as [|c2 d2]; [done|]. reflexivity.
Qed.

Lemma match_here_not_p c s : c <> "p"%char -> match_here (String c s) = None.
Proof.
  intros Hc. unfold match_here.
  destruct c as [[] [] [] [] [] [] [] []]; try done.
Qed.

Lemma findall_from_skip dir : forall fuel s,
  no_p dir ->
  findall_from (String.length dir + fuel) (dir ++ s) = findall_from fuel s.
Proof.
  induction dir as [|c dir IH]; intros fuel s Hp; [done|].
  destruct Hp as [Hc Hp]. cbn [String.length Nat.add append findall_from].
  rewrite match_here_not_p by done. by apply IH.
Qed.

(** X4: a path whose directory part has no letter [p], followed by
    [p<d1>_<d2>.wav] for non-empty runs of digits [d1] and [d2], has the
    number [d1] reads as for its category id, whatever comes after. *)
Theorem category_id_of_named_file (dir d1 d2 rest : string) :
  no_p dir ->
  all_digits d1 = true -> d1 <> EmptyString ->
  all_digits d2 = true -> d2 <> EmptyString ->
  category_id_of (dir ++ "p" ++ d1 ++ "_" ++ d2 ++ ".wav" ++ rest)
  = Some (py_int d1).
Proof.
  intros Hp H1 N1 H2 N2. unfold category_id_of, findall.
  set (m := ("p" ++ d1 ++ "_" ++ d2 ++ ".wav" ++ rest)%string).
  assert (Hlen : S (String.length (dir ++ m))
                 = (String.length dir + S (String.length m))%nat).
  { clear. induction dir as [|c dir IH]; [done|]. simpl in *. lia. }
  rewrite Hlen, findall_from_skip by done.
  cbn [findall_from]. unfold m. by rewrite match_here_build.
Qed.

Lemma category_id_of_named_file_witness :
  category_id_of ("data/" ++ "p" ++ "7" ++ "_" ++ "3" ++ ".wav" ++ "") = Some (py_int "7").
Proof.
  apply (category_id_of_named_file "data/" "7" "3" "").
  - simpl. repeat split; discriminate.
  - reflexivity.
  - discriminate.
  - reflexivity.
  - discriminate.
Defined.

(** ** The cardinality as a function of the set of files *)

Lemma cardinality_spec (files : list string) :
  files <> [] -> Forall has_id files ->
  exists lo hi,
    get_category_cardinality files = Ok (Some lo, Some hi)
    /\ (exists f, f ∈ files /\ category_id_of f = Some lo)
    /\ (exists f, f ∈ files /\ category_id_of f = Some hi)
    /\ (forall f id, f ∈ files -> category_id_of f = Some id -> lo <= id <= hi).
Proof.
  intros Hne Hall. destruct files as [|f files]; [done|].
  inversion Hall as [|? ? Hf Hrest]; subst.
  destruct (category_id_of_has_id f Hf) as [id Hid].
  assert (Hstep : get_category_cardinality (f :: files)
                  = get_category_cardinality_loop files (Some id) (Some id)).
  { revert Hid. unfold get_category_cardinality, category_id_of. simpl.
    destruct (findall f) as [|[g1 g2] ms]; [done|]. by intros [= <-]. }
  destruct (cardinality_loop_bounds files id id Hrest ltac:(lia))
    as (lo & hi & Hrun & L1 & L2 & Hlo & Hhi & Hbnd).
  exists lo, hi. rewrite Hstep. split; [done|].
  split; [|split].
  - destruct Hlo as [->|(f' & Hin & Hf')].
    + exists f. split; [apply list_elem_of_here | done].
    + exists f'. split; [by apply list_elem_of_further | done].
  - destruct Hhi as [->|(f' & Hin & Hf')].
    + exists f. split; [apply list_elem_of_here | done].
    + exists f'. split; [by apply list_elem_of_further | done].
  - intros f' id' Hin Hf'. apply elem_of_cons in Hin as [->|Hin].
    + rewrite Hid in Hf'. injection Hf' as <-. lia.
    + by apply (Hbnd f').
Qed.

(** X5: the result of [get_category_cardinality] does not depend on the
    order in which the files are listed. *)
Theorem cardinality_order_independent (files files' : list string) :
  files ≡ₚ files' ->
  get_category_cardinality files = get_category_cardinality files'.
Proof.
  intros Hperm.
  destruct (has_id_or_missing files) as [Hall|Hex].
  - assert (Hall' : Forall has_id files') by (by rewrite <- Hperm).
    destruct files as [|f0 files0] eqn:Hfiles.
    { apply Permutation_nil_l in Hperm. by subst. }
    rewrite <- Hfiles in *. assert (Hne : files <> []) by (by rewrite Hfiles).
    assert (Hne' : files' <> []).
    { intros ->. apply Permutation_nil_r in Hperm. done. }
    destruct (cardinality_spec files Hne Hall)
      as (lo & hi & -> & (fl & Hfl & Hlo) & (fh & Hfh & Hhi) & Hb).
    destruct (cardinality_spec files' Hne' Hall')
      as (lo' & hi' & -> & (fl' & Hfl' & Hlo') & (fh' & Hfh' & Hhi') & Hb').
    rewrite Hperm in Hfl, Hfh. rewrite <- Hperm in Hfl', Hfh'.
    pose proof (Hb' fl lo Hfl Hlo). pose proof (Hb' fh hi Hfh Hhi).
    pose proof (Hb fl' lo' Hfl' Hlo'). pose proof (Hb fh' hi' Hfh' Hhi').
    do 3 f_equal; lia.
  - assert (Hex' : Exists (fun f => findall f = []) files') by (by rewrite <- Hperm).
    unfold get_category_cardinality.
    by rewrite !cardinality_loop_missing_id.
Qed.

Lemma cardinality_order_independent_witness :
  get_category_cardinality ["p2_1.wav"; "p9_3.wav"; "p5_1.wav"]%string
  = get_category_cardinality ["p5_1.wav"; "p2_1.wav"; "p9_3.wav"]%string.
Proof.
  apply cardinality_order_independent. symmetry.
  apply (Permutation_cons_append ["p2_1.wav"; "p9_3.wav"]%string "p5_1.wav"%string).
Defined.

Lemma category_id_nonneg (f : string) (id : Z) :
  category_id_of f = Some id -> 0 <= id.
Proof.
  unfold category_id_of, findall.
  destruct (findall_from (S (String.length f)) f) as [|[g1 g2] ms] eqn:E; [done|].
  intros [= <-].
  apply findall_from_first in E as (_ & _ & _ & H1 & _).
  by apply int_digits_nonneg.
Qed.

(** X6: a reader built with global conditioning has a table size, and the
    id of every file is an index of that table: it is at least 0 and less
    than [gc_category_cardinality]. *)
Theorem init_ids_index_the_table (files : list string) (lc : bool) (rf : Z)
    (ss : option Z) (thr : option Q) (r : AudioReader) :
  AudioReader_init files true lc rf ss thr = Ok r ->
  exists card,
    gc_category_cardinality r = Some card
    /\ forall f, f ∈ files ->
         exists id, category_id_of f = Some id /\ 0 <= id < card.
Proof.
  unfold AudioReader_init. destruct files as [|f0 files0] eqn:Hfiles; [done|].
  rewrite <- Hfiles. cbn [andb].
  destruct (not_all_have_id files) eqn:Hn; [done|].
  apply not_all_have_id_false in Hn.
  destruct (cardinality_spec files) as (lo & hi & -> & _ & _ & Hb);
    [by rewrite Hfiles | done |].
  intros [= <-]. exists (hi + 1). split; [done|].
  intros f Hf.
  destruct (category_id_of_has_id f) as [id Hid].
  { by eapply Forall_forall in Hn. }
  exists id. split; [done|].
  pose proof (Hb f id Hf Hid). pose proof (category_id_nonneg f id Hid).
  lia.
Qed.

Lemma init_ids_index_the_table_witness :
  exists card,
    gc_category_cardinality
      (reader_with_cardinality (Some 4000) 1000 None true false (Some 10))
    = Some card
    /\ forall f, f ∈ ["p2_1.wav"; "p9_3.wav"; "p5_1.wav"]%string ->
         exists id, category_id_of f = Some id /\ 0 <= id < card.
Proof.
  apply (init_ids_index_the_table ["p2_1.wav"; "p9_3.wav"; "p5_1.wav"]%string
           false 1000 (Some 4000) None).
  reflexivity.
Defined.

(** * Finding and loading the files *)

Lemma ends_with_wav_app (a b : string) :
  ends_with_wav b = true -> ends_with_wav (a ++ b) = true.
Proof.
  intros Hb. induction a as [|c a IH]; [done|].
  simpl. rewrite IH. apply orb_true_r.
Qed.

Lemma path_join_ends_with_wav (root name : string) :
  ends_with_wav name = true -> ends_with_wav (path_join root name) = true.
Proof.
  intros Hn. unfold path_join.
  destruct (starts_with_slash name); [done|].
  destruct (is_empty root || ends_with_slash root)%bool.
  - by apply ends_with_wav_app.
  - apply ends_with_wav_app. by apply (ends_with_wav_app "/").
Qed.

Lemma elem_of_fnmatch_filter (names : list string) (x : string) :
  x ∈ fnmatch_filter names <-> x ∈ names /\ ends_with_wav x = true.
Proof.
  induction names as [|n names IH]; simpl.
  - split; [intros H; by apply elem_of_nil in H | intros [H _]; by apply elem_of_nil in H].
  - destruct (ends_with_wav n) eqn:En.
    + rewrite !elem_of_cons, IH. split.
      * intros [->|[? ?]]; [split; [by left | done] | split; [by right | done]].
      * intros [[->|?] ?]; [by left | by right].
    + rewrite elem_of_cons, IH. split.
      * intros [? ?]. split; [by right | done].
      * intros [[->|?] ?]; [congruence | done].
Qed.

(** X7: [find_files] returns exactly the paths [os.path.join(root, name)]
    of the files whose name ends in [.wav], and each of these paths ends
    in [.wav] itself. *)
Theorem find_files_finds_wav
    (walk : list (string * list string * list string)) (f : string) :
  (f ∈ find_files walk
   <-> exists root dirs names name,
         (root, dirs, names) ∈ walk /\ name ∈ names
         /\ ends_with_wav name = true /\ f = path_join root name)
  /\ (f ∈ find_files walk -> ends_with_wav f = true).
Proof.
  assert (Hiff : f ∈ find_files walk
            <-> exists root dirs names name,
                  (root, dirs, names) ∈ walk /\ name ∈ names
                  /\ ends_with_wav name = true /\ f = path_join root name).
  { induction walk as [|[[root dirs] names] walk IH]; simpl.
    - split; [intros H; by apply elem_of_nil in H|].
      intros (? & ? & ? & ? & H & _). by apply elem_of_nil in H.
    - rewrite elem_of_app, IH, list_elem_of_fmap. split.
      + intros [(name & -> & Hn)|(root' & dirs' & names' & name & Hw & Hn)].
        * apply elem_of_fnmatch_filter in Hn as [Hn Hwav].
          exists root, dirs, names, name.
          split; [apply list_elem_of_here | done].
        * exists root', dirs', names', name.
          split; [by apply list_elem_of_further | done].
      + intros (root' & dirs' & names' & name & Hw & Hn & Hwav & ->).
        apply elem_of_cons in Hw as [[= -> -> ->]|Hw].
        * left. exists name. split; [done|]. by apply elem_of_fnmatch_filter.
        * right. by exists root', dirs', names', name. }
  split; [exact Hiff|].
  intros Hf. apply Hiff in Hf as (root & dirs & names & name & _ & _ & Hwav & ->).
  by apply path_join_ends_with_wav.
Qed.

Lemma find_files_finds_wav_witness :
  "corpus/p2_1.wav"%string
    ∈ find_files [("corpus", ["a"], ["notes.txt"; "p2_1.wav"]);
                  ("corpus/a", [], ["p9_3.wav"; "cover.jpg"])]%string
  /\ ends_with_wav "corpus/p2_1.wav" = true.
Proof.
  pose proof (find_files_finds_wav
                [("corpus", ["a"], ["notes.txt"; "p2_1.wav"]);
                 ("corpus/a", [], ["p9_3.wav"; "cover.jpg"])]%string
                "corpus/p2_1.wav"%string) as [Hiff Hwav].
  assert (Hin : "corpus/p2_1.wav"%string
                  ∈ find_files [("corpus", ["a"], ["notes.txt"; "p2_1.wav"]);
                                ("corpus/a", [], ["p9_3.wav"; "cover.jpg"])]%string).
  { apply Hiff. exists "corpus"%string, ["a"%string],
      ["notes.txt"; "p2_1.wav"]%string, "p2_1.wav"%string.
    split; [apply list_elem_of_here|].
    split; [apply list_elem_of_further, list_elem_of_here|].
    split; reflexivity. }
  split; [exact Hin | exact (Hwav Hin)].
Defined.

Example find_files_example :
  find_files [("corpus", ["a"], ["notes.txt"; "p2_1.wav"]);
              ("corpus/a", [], ["p9_3.wav"; "cover.jpg"])]%string
  = ["corpus/p2_1.wav"; "corpus/a/p9_3.wav"]%string.
Proof. reflexivity. Qed.

Lemma randomize_files_at_in_range (fns : list string) (draw : nat -> nat)
    (positions : list nat) :
  (forall k, (draw k < length fns)%nat) ->
  exists names,
    randomize_files_at fns draw positions = (names, None)
    /\ Forall2 (fun k fn => fns !! draw k = Some fn) positions names.
Proof.
  intros Hdraw. induction positions as [|k positions (names & Hrun & Hall)].
  - exists []. split; [done | constructor].
  - destruct (lookup_lt_is_Some_2 fns (draw k) (Hdraw k)) as [fn Hfn].
    exists (fn :: names). simpl. rewrite Hfn, Hrun.
    split; [done | by constructor].
Qed.

(** X8: when every draw is an index of the list of files, as
    [random.randint(0, len(fns) - 1)] sees to, one pass of
    [load_generic_audio] ends normally after as many tuples as there are
    files; the k-th tuple is made from the file at the k-th draw: it has
    that file's name, the category id parsed from that name, and that
    file's waveform without its last [5 * sample_rate] samples. *)
Theorem load_generic_audio_yields (decode : string -> Z -> list Q)
    (walk : list (string * list string * list string)) (sample_rate : Z)
    (draw : nat -> nat) :
  (forall k, (draw k < length (find_files walk))%nat) ->
  exists ys,
    load_generic_audio decode walk sample_rate draw = (ys, None)
    /\ length ys = length (find_files walk)
    /\ forall k y, ys !! k = Some y ->
         exists fn,
           find_files walk !! draw k = Some fn
           /\ yielded_filename y = fn
           /\ yielded_category_id y = category_id_of fn
           /\ yielded_audio y
              = Vector (slice_to (- 5 * sample_rate) (decode fn sample_rate)).
Proof.
  intros Hdraw. unfold load_generic_audio, randomize_files.
  destruct (randomize_files_at_in_range (find_files walk) draw
              (seq 0 (length (find_files walk))) Hdraw) as (names & -> & Hall).
  eexists. split; [done|].
  pose proof (Forall2_length _ _ _ Hall) as Hlen. rewrite length_seq in Hlen.
  split; [by rewrite length_map|].
  intros k y Hy. apply list_lookup_fmap_Some in Hy as (fn & -> & Hfn).
  destruct (Forall2_lookup_r _ _ _ _ _ Hall Hfn) as (k' & Hk' & Hdrawn).
  apply lookup_seq in Hk' as [-> _]. exists fn. done.
Qed.

Lemma load_generic_audio_yields_witness :
  exists ys,
    load_generic_audio (fun _ _ => [1; 2; 3; 4; 5; 6; 7]%Q)
      [("corpus", [], ["p2_1.wav"; "p9_3.wav"])]%string 1 (fun _ => 1%nat)
    = (ys, None)
    /\ length ys = 2%nat.
Proof.
  destruct (load_generic_audio_yields (fun _ _ => [1; 2; 3; 4; 5; 6; 7]%Q)
              [("corpus", [], ["p2_1.wav"; "p9_3.wav"])]%string 1
              (fun _ => 1%nat)) as (ys & Hrun & Hlen & _).
  - intros k. simpl. lia.
  - exists ys. split; [exact Hrun | exact Hlen].
Defined.

Example load_generic_audio_example :
  load_generic_audio (fun _ _ => [1; 2; 3; 4; 5; 6; 7]%Q)
    [("corpus", [], ["p2_1.wav"; "p9_3.wav"])]%string 1 (fun _ => 1%nat)
  = ([ {| yielded_audio := Vector [1; 2]%Q;
          yielded_filename := "corpus/p9_3.wav";
          yielded_category_id := Some 9 |};
       {| yielded_audio := Vector [1; 2]%Q;
          yielded_filename := "corpus/p9_3.wav";
          yielded_category_id := Some 9 |} ], None).
Proof. reflexivity. Qed.

(** X9: for a positive sample rate, the waveform [load_generic_audio]
    yields for a file is the decoded waveform without its last
    [5 * sample_rate] samples, and it is empty when the recording lasts
    five seconds or less. *)
Theorem load_file_cuts_five_seconds (decode : string -> Z -> list Q)
    (sample_rate : Z) (fn : string) :
  0 < sample_rate ->
  let decoded := decode fn sample_rate in
  yielded_audio (load_file decode sample_rate fn)
  = Vector (take (Z.to_nat (Z.of_nat (length decoded) - 5 * sample_rate)) decoded)
  /\ (Z.of_nat (length decoded) <= 5 * sample_rate ->
      yielded_audio (load_file decode sample_rate fn) = Vector []).
Proof.
  intros Hsr decoded. cbn [load_file yielded_audio]. fold decoded.
  assert (H : slice_to (- 5 * sample_rate) decoded
              = take (Z.to_nat (Z.of_nat (length decoded) - 5 * sample_rate)) decoded).
  { unfold slice_to, slice_bound.
    destruct (Z.ltb_spec (- 5 * sample_rate) 0); [|lia]. f_equal. lia. }
  rewrite H. split; [done|]. intros Hshort.
  replace (Z.to_nat (Z.of_nat (length decoded) - 5 * sample_rate)) with 0%nat by lia.
  done.
Qed.

Lemma load_file_cuts_five_seconds_witness :
  yielded_audio (load_file (fun _ _ => [1; 2; 3; 4; 5; 6; 7]%Q) 1 "p2_1.wav")
  = Vector [1; 2]%Q.
Proof.
  apply (load_file_cuts_five_seconds (fun _ _ => [1; 2; 3; 4; 5; 6; 7]%Q) 1
           "p2_1.wav"). lia.
Defined.

(** X10: with global conditioning, what [__init__] accepted is what the
    workers feed: every tuple [load_generic_audio] yields carries a
    category id, and that id is an index of the embedding table, at least
    0 and less than [gc_category_cardinality]. *)
Theorem yielded_ids_index_the_table (decode : string -> Z -> list Q)
    (walk : list (string * list string * list string)) (sample_rate : Z)
    (draw : nat -> nat) (lc : bool) (rf : Z) (ss : option Z) (thr : option Q)
    (r : AudioReader) :
  AudioReader_init (find_files walk) true lc rf ss thr = Ok r ->
  (forall k, (draw k < length (find_files walk))%nat) ->
  exists ys card,
    load_generic_audio decode walk sample_rate draw = (ys, None)
    /\ gc_category_cardinality r = Some card
    /\ Forall (fun y => exists id,
                 yielded_category_id y = Some id /\ 0 <= id < card) ys.
Proof.
  intros Hinit Hdraw.
  set (files := find_files walk) in *.
  assert (Hcard : exists hi,
            Forall has_id files /\ gc_category_cardinality r = Some (hi + 1)
            /\ forall f id, f ∈ files -> category_id_of f = Some id -> id <= hi).
  { revert Hinit. unfold AudioReader_init.
    destruct files as [|f0 files0] eqn:Hfiles; [done|].
    rewrite <- Hfiles. cbn [andb].
    destruct (not_all_have_id files) eqn:Hn; [done|].
    apply not_all_have_id_false in Hn.
    destruct (cardinality_spec files) as (lo & hi & -> & _ & _ & Hb);
      [by rewrite Hfiles | done |].
    intros [= <-]. exists hi. split; [done|]. split; [done|].
    intros f id Hf Hid. by destruct (Hb f id Hf Hid). }
  destruct Hcard as (hi & Hall & Hcard & Hb).
  unfold load_generic_audio, randomize_files. fold files.
  destruct (randomize_files_at_in_range files draw (seq 0 (length files)) Hdraw)
    as (names & -> & Hnames).
  eexists _, (hi + 1). split; [done|]. split; [done|].
  apply Forall_forall. intros y Hy.
  apply list_elem_of_fmap in Hy as (fn & -> & Hfn).
  apply list_elem_of_lookup in Hfn as [k Hk].
  destruct (Forall2_lookup_r _ _ _ _ _ Hnames Hk) as (k' & _ & Hdrawn).
  assert (Hin : fn ∈ files) by (by eapply list_elem_of_lookup_2).
  destruct (category_id_of_has_id fn) as [id Hid].
  { by eapply Forall_forall in Hall. }
  exists id. split; [done|].
  pose proof (Hb fn id Hin Hid). pose proof (category_id_nonneg fn id Hid). lia.
Qed.

Lemma yielded_ids_index_the_table_witness :
  exists ys card,
    load_generic_audio (fun _ _ => [1; 2; 3; 4; 5; 6; 7]%Q)
      [("corpus", [], ["p2_1.wav"; "p9_3.wav"])]%string 1 (fun _ => 1%nat)
    = (ys, None)
    /\ gc_category_cardinality
         (reader_with_cardinality None 2 None true false (Some 10)) = Some card
    /\ Forall (fun y => exists id,
                 yielded_category_id y = Some id /\ 0 <= id < card) ys.
Proof.
  apply (yielded_ids_index_the_table (fun _ _ => [1; 2; 3; 4; 5; 6; 7]%Q)
           [("corpus", [], ["p2_1.wav"; "p9_3.wav"])]%string 1 (fun _ => 1%nat)
           false 2 None None).
  - reflexivity.
  - intros k. simpl. lia.
Defined.

(** * Further properties of silence trimming *)

Lemma slice_is_infix {A} (i j : Z) (l : list A) :
  exists pre post, l = pre ++ slice i j l ++ post.
Proof.
  unfold slice.
  set (x := slice_bound (length l) i). set (y := slice_bound (length l) j).
  exists (take x (take y l)), (drop y l).
  by rewrite app_assoc, !take_drop.
Qed.

(** X11: whatever the energies, [trim_silence] returns a run of
    consecutive samples of the waveform: it cuts at both ends and neither
    alters nor reorders what it keeps. *)
Theorem trim_silence_is_infix (L : library) (a : list Q) (thr : Q)
    (frame_length : Z) :
  exists pre post, a = pre ++ trim_silence L a thr frame_length ++ post.
Proof.
  unfold trim_silence.
  destruct (map _ (np_nonzero _)) as [|first indices]; apply slice_is_infix.
Qed.

Lemma np_nonzero_from_app (m1 m2 : list bool) : forall i,
  np_nonzero_from i (m1 ++ m2)
  = np_nonzero_from i m1 ++ np_nonzero_from (i + length m1) m2.
Proof.
  induction m1 as [|b m1 IH]; intros i.
  - simpl. by rewrite Nat.add_0_r.
  - simpl. rewrite IH. replace (S i + length m1)%nat with (i + S (length m1))%nat by lia.
    by destruct b.
Qed.

(** X12: when the first frame above the threshold is frame [f] and the
    last one is frame [l], [trim_silence] returns [audio[f*512 : l*512]]:
    the samples from the start of the last loud frame on are cut with the
    silence, and a waveform with a single loud frame is cut to nothing. *)
Theorem trim_silence_first_to_last_frame (L : library) (a : list Q) (thr : Q)
    (frame_length : Z) (f l : nat) (ef el : Q) :
  let energy := rmse L a (clamp_frame_length a frame_length) in
  energy !! f = Some ef -> (thr < ef)%Q ->
  energy !! l = Some el -> (thr < el)%Q ->
  (forall i e, energy !! i = Some e -> (thr < e)%Q -> (f <= i <= l)%nat) ->
  trim_silence L a thr frame_length = drop (f * 512) (take (l * 512) a)
  /\ (f = l -> trim_silence L a thr frame_length = []).
Proof.
  intros energy Hf Hef Hl Hel Hrange.
  set (mask := map (fun e => Qgt_bool e thr) energy).
  assert (Hmask : forall i, mask !! i = Some true -> (f <= i <= l)%nat).
  { intros i Hi. unfold mask in Hi.
    apply list_lookup_fmap_Some in Hi as (e & He & Hi).
    apply (Hrange i e Hi). apply Qgt_bool_true. done. }
  assert (Hmf : mask !! f = Some true).
  { unfold mask. apply list_lookup_fmap_Some. exists ef.
    split; [symmetry; by apply Qgt_bool_true | done]. }
  assert (Hml : mask !! l = Some true).
  { unfold mask. apply list_lookup_fmap_Some. exists el.
    split; [symmetry; by apply Qgt_bool_true | done]. }
  assert (Hquiet : forall m i0, (forall i, m !! i = Some true -> False) ->
                     np_nonzero_from i0 m = []).
  { intros m i0 Hm. apply np_nonzero_from_all_false.
    apply Forall_lookup. intros i b Hb. destruct b; [|done]. by destruct (Hm i). }
  (* the first index listed is [f] *)
  assert (Hhead : exists tl, np_nonzero mask = f :: tl).
  { rewrite <- (take_drop_middle mask f true Hmf). unfold np_nonzero.
    rewrite np_nonzero_from_app. rewrite (Hquiet (take f mask)).
    2:{ intros i Hi. apply lookup_take_Some in Hi as [Hi Hlt].
        apply Hmask in Hi. lia. }
    cbn [app np_nonzero_from]. rewrite length_take_le.
    2:{ apply lookup_lt_Some in Hmf. lia. }
    by eexists. }
  (* the last index listed is [l] *)
  assert (Hlast : exists hd, np_nonzero mask = hd ++ [l]).
  { rewrite <- (take_drop_middle mask l true Hml). unfold np_nonzero.
    rewrite np_nonzero_from_app. cbn [np_nonzero_from].
    rewrite (Hquiet (drop (S l) mask)).
    2:{ intros i Hi. rewrite lookup_drop in Hi. apply Hmask in Hi. lia. }
    rewrite length_take_le.
    2:{ apply lookup_lt_Some in Hml. lia. }
    by eexists. }
  destruct Hhead as [tl Hhead]. destruct Hlast as [hd Hlast].
  assert (Hcut : trim_silence L a thr frame_length
                 = drop (f * 512) (take (l * 512) a)).
  { unfold trim_silence. fold (clamp_frame_length a frame_length).
    fold energy. fold mask.
    assert (Hlst : last (map (fun i => Z.of_nat i * hop_length) (np_nonzero mask))
                   = Some (Z.of_nat l * hop_length)).
    { rewrite Hlast, map_app. apply last_snoc. }
    rewrite Hlst, Hhead. cbn [map]. simpl (default _ _). unfold hop_length.
    rewrite slice_nonneg by lia. f_equal; [lia|]. f_equal. lia. }
  split; [exact Hcut|]. intros ->. rewrite Hcut. apply drop_ge.
  rewrite length_take. lia.
Qed.

Lemma trim_silence_first_to_last_frame_witness :
  trim_silence example_library (replicate 600 1%Q) (1 # 10)%Q 2048
  = drop (0 * 512) (take (1 * 512) (replicate 600 1%Q)).
Proof.
  apply (trim_silence_first_to_last_frame example_library (replicate 600 1%Q)
           (1 # 10)%Q 2048 0 1 1%Q 1%Q).
  - reflexivity.
  - reflexivity.
  - reflexivity.
  - reflexivity.
  - intros i e Hi _. apply lookup_lt_Some in Hi.
    change (length (rmse example_library (replicate 600 1%Q)
                      (clamp_frame_length (replicate 600 1%Q) 2048))) with 2%nat in Hi.
    lia.
Defined.

(** * Further properties of the segmentation *)

Lemma windows_hops_tile (rf ss : Z) (a : list Q) (n : nat) :
  0 <= rf -> 0 < ss ->
  concat (map (take (Z.to_nat ss))
            (map (fun k => take (Z.to_nat (rf + ss)) (drop (k * Z.to_nat ss) a))
                 (seq 0 n)))
  = take (n * Z.to_nat ss) a.
Proof.
  intros Hrf Hss. induction n as [|n IH]; [done|].
  rewrite seq_S, !map_app, concat_app, IH. cbn [map concat Nat.add].
  rewrite app_nil_r, take_take.
  replace (Z.to_nat ss `min` Z.to_nat (rf + ss))%nat with (Z.to_nat ss) by lia.
  rewrite take_take_drop. f_equal. lia.
Qed.

(** X13: in windowed mode the hops tile the waveform: the first
    [sample_size] samples of the windows, put end to end, are the first
    [n * sample_size] samples of the padded waveform, [n] being the number
    of windows; no sample of that stretch is skipped or repeated. *)
Theorem windows_tile_the_waveform (fuel : nat) (L : library) (r : AudioReader)
    (it : item) (a : list Q) (ss : Z) :
  sample_size r = Some ss -> 0 < ss -> 0 <= receptive_field r ->
  (length a < fuel)%nat -> feeds L r it ->
  exists tr,
    enqueue_file fuel L r it a [] = (tr, Ret tt)
    /\ concat (map (take (Z.to_nat ss)) (enqueued tr))
       = take (length (enqueued tr) * Z.to_nat ss) a.
Proof.
  intros Hss Hpos Hrf Hfuel Hfeeds.
  eexists. split; [by apply (enqueue_file_windowed fuel L r it a [] ss)|].
  rewrite app_nil_l, enqueued_window_events, length_windows_of.
  unfold windows_of. by apply windows_hops_tile.
Qed.

Lemma windows_tile_the_waveform_witness :
  exists tr,
    enqueue_file 8 example_library (reader (Some 2) 1 None false false)
      {| audio := []; filename := "p1_1.wav"; category_id := Some 1 |}
      [0; 1; 2; 3; 4; 5; 6]%Q [] = (tr, Ret tt)
    /\ concat (map (take (Z.to_nat 2)) (enqueued tr))
       = take (length (enqueued tr) * Z.to_nat 2) [0; 1; 2; 3; 4; 5; 6]%Q.
Proof.
  apply (windows_tile_the_waveform 8 example_library
           (reader (Some 2) 1 None false false)
           {| audio := []; filename := "p1_1.wav"; category_id := Some 1 |}
           [0; 1; 2; 3; 4; 5; 6]%Q 2).
  - reflexivity.
  - lia.
  - simpl; lia.
  - simpl; lia.
  - split; simpl; discriminate.
Defined.

Lemma window_count_tail (len rf ss : Z) :
  0 <= rf -> 0 < ss ->
  len <= Z.of_nat (window_count len rf ss) * ss + rf + ss.
Proof.
  intros Hrf Hss. unfold window_count.
  destruct (Z.gtb_spec len (rf + ss)); [|simpl; lia].
  rewrite Z2Nat.id by (apply Z.div_pos; lia).
  pose proof (Z.mod_pos_bound (len - rf - 1) ss Hss).
  pose proof (Z.div_mod (len - rf - 1) ss ltac:(lia)). nia.
Qed.

(** X14: in windowed mode window [k] is [audio[k*ss : k*ss + rf + ss]]
    and ends before the end of the waveform, and the loop stops with at
    most [sample_size] samples past the last window: whenever a window is
    cut, between 1 and [sample_size] samples at the end of the waveform,
    its last sample among them, reach no window. *)
Theorem windows_leave_a_tail (fuel : nat) (L : library) (r : AudioReader)
    (it : item) (a : list Q) (ss : Z) :
  sample_size r = Some ss -> 0 < ss -> 0 <= receptive_field r ->
  (length a < fuel)%nat -> feeds L r it ->
  let rf := receptive_field r in
  let len := Z.of_nat (length a) in
  exists tr,
    enqueue_file fuel L r it a [] = (tr, Ret tt)
    /\ (forall k w, enqueued tr !! k = Some w ->
          w = take (Z.to_nat (rf + ss)) (drop (k * Z.to_nat ss) a)
          /\ Z.of_nat k * ss + rf + ss < len)
    /\ len <= Z.of_nat (length (enqueued tr)) * ss + rf + ss.
Proof.
  intros Hss Hpos Hrf Hfuel Hfeeds rf len.
  eexists. split; [by apply (enqueue_file_windowed fuel L r it a [] ss)|].
  rewrite app_nil_l, enqueued_window_events, length_windows_of. fold rf len.
  split.
  - intros k w Hw. apply lookup_windows_of in Hw as [Hk ->].
    split; [done|]. by apply window_count_bound.
  - by apply window_count_tail.
Qed.

Lemma windows_leave_a_tail_witness :
  exists tr,
    enqueue_file 8 example_library (reader (Some 2) 1 None false false)
      {| audio := []; filename := "p1_1.wav"; category_id := Some 1 |}
      [0; 1; 2; 3; 4; 5; 6]%Q [] = (tr, Ret tt)
    /\ (forall k w, enqueued tr !! k = Some w ->
          w = take (Z.to_nat (1 + 2)) (drop (k * Z.to_nat 2) [0; 1; 2; 3; 4; 5; 6]%Q)
          /\ Z.of_nat k * 2 + 1 + 2 < 7)
    /\ 7 <= Z.of_nat (length (enqueued tr)) * 2 + 1 + 2.
Proof.
  apply (windows_leave_a_tail 8 example_library
           (reader (Some 2) 1 None false false)
           {| audio := []; filename := "p1_1.wav"; category_id := Some 1 |}
           [0; 1; 2; 3; 4; 5; 6]%Q 2).
  - reflexivity.
  - lia.
  - simpl; lia.
  - simpl; lia.
  - split; simpl; discriminate.
Defined.

(** X15: in windowed mode a waveform of at most [sample_size] samples is
    dropped without a trace: once padded it is no longer than a window,
    and nothing is pushed to any queue and nothing is printed for it. *)
Theorem short_file_leaves_no_trace (fuel : nat) (L : library) (r : AudioReader)
    (it : item) (a : list Q) (ss : Z) (tr : list event) :
  sample_size r = Some ss -> 0 < ss -> 0 <= receptive_field r ->
  Z.of_nat (length a) <= ss -> (0 < fuel)%nat ->
  (a' <- np_pad_head (receptive_field r) a ;; enqueue_file fuel L r it a') tr
  = (tr, Ret tt).
Proof.
  intros Hss Hpos Hrf Hshort Hfuel.
  unfold np_pad_head. destruct (Z.ltb_spec (receptive_field r) 0); [lia|].
  unfold bind at 1. unfold ret at 1.
  unfold enqueue_file. rewrite Hss. destruct (Z.eqb_spec ss 0); [lia|].
  destruct fuel as [|fuel]; [lia|]. cbn [window_loop].
  rewrite length_app, length_replicate.
  destruct (Z.gtb_spec (Z.of_nat (Z.to_nat (receptive_field r) + length a))
              (receptive_field r + ss)); [lia|].
  reflexivity.
Qed.

Lemma short_file_leaves_no_trace_witness :
  (a' <- np_pad_head 2 [1; 2; 3; 4]%Q ;;
   enqueue_file 1 example_library (reader (Some 4) 2 None true true)
     {| audio := []; filename := "p1_1.wav"; category_id := Some 1 |} a') []
  = ([], Ret tt).
Proof.
  apply (short_file_leaves_no_trace 1 example_library
           (reader (Some 4) 2 None true true)
           {| audio := []; filename := "p1_1.wav"; category_id := Some 1 |}
           [1; 2; 3; 4]%Q 4 []).
  - reflexivity.
  - lia.
  - simpl; lia.
  - simpl; lia.
  - lia.
Defined.

(** * Further properties of the worker *)

Lemma bind_Ret_inv {A B} (m : worker A) (k : A -> worker B) tr tr' b :
  bind m k tr = (tr', Ret b) ->
  exists tr1 a, m tr = (tr1, Ret a) /\ k a tr1 = (tr', Ret b).
Proof.
  unfold bind. destruct (m tr) as [tr1 [a| |]]; [|done|done].
  intros H. by exists tr1, a.
Qed.

Lemma window_loop_negative_window (L : library) (r : AudioReader) (it : item)
    (window ss : Z) :
  window < 0 ->
  forall fuel a tr tr', window_loop fuel L r it window ss a tr <> (tr', Ret tt).
Proof.
  intros Hw. induction fuel as [|fuel IH]; intros a tr tr' H; [done|].
  cbn [window_loop] in H.
  destruct (Z.gtb_spec (Z.of_nat (length a)) window); [|lia].
  apply bind_Ret_inv in H as (tr1 & [] & _ & H).
  apply bind_Ret_inv in H as (tr2 & [] & _ & H).
  apply bind_Ret_inv in H as (tr3 & [] & _ & H).
  by apply IH in H.
Qed.

(** X16: a [sample_size] below [-receptive_field] makes the window length
    negative, and the window loop then has no end: however many rounds it
    is given, the worker does not get past the file (it is still in the
    loop, or a feed has failed). *)
Theorem negative_window_never_ends (fuel : nat) (L : library) (r : AudioReader)
    (it : item) (ss : Z) (tr tr' : list event) :
  sample_size r = Some ss -> 0 <= receptive_field r ->
  receptive_field r + ss < 0 ->
  process_file fuel L r it tr <> (tr', Ret tt).
Proof.
  intros Hss Hrf Hneg H. unfold process_file in H.
  apply bind_Ret_inv in H as (tr1 & a & _ & H).
  unfold enqueue_file in H. rewrite Hss in H.
  destruct (Z.eqb_spec ss 0); [lia|].
  by apply window_loop_negative_window in H.
Qed.

Lemma negative_window_never_ends_witness :
  process_file 50 example_library (reader (Some (-1)) 0 None false false)
    {| audio := [1; 2; 3]%Q; filename := "p1_1.wav"; category_id := Some 1 |} []
  <> ([Enqueue [1; 2]%Q], Ret tt).
Proof.
  apply (negative_window_never_ends 50 example_library
           (reader (Some (-1)) 0 None false false)
           {| audio := [1; 2; 3]%Q; filename := "p1_1.wav";
              category_id := Some 1 |} (-1)).
  - reflexivity.
  - simpl; lia.
  - simpl; lia.
Defined.

Lemma epoch_loop_stop (fuel : nat) (L : library) (r : AudioReader)
    (coord : nat -> bool) (ys : list yielded) (ended : option exn) :
  forall tr tr',
    epoch_loop fuel L r coord ys ended tr = (tr', Ret true) ->
    coord (length tr') = true.
Proof.
  induction ys as [|y ys IH]; intros tr tr' H.
  - cbn [epoch_loop] in H. by destruct ended.
  - cbn [epoch_loop] in H.
    apply bind_Ret_inv in H as (tr1 & c & Hc & H).
    unfold should_stop in Hc. injection Hc as <- <-.
    destruct (coord (length tr)) eqn:Ec.
    + unfold ret in H. injection H as <-. done.
    + apply bind_Ret_inv in H as (tr2 & [] & _ & H). by apply IH in H.
Qed.

(** X18: [thread_main] returns only on cancellation: when it returns, the
    signal was set at the last thing the worker did, a test at the head of
    a file; with a signal that is never set it does not return, however
    many passes over the files it is given. *)
Theorem thread_main_returns_on_cancellation_only (fuel : nat) (L : library)
    (r : AudioReader) (coord : nat -> bool) (decode : string -> Z -> list Q)
    (walk : list (string * list string * list string)) (sample_rate : Z)
    (draws : list (nat -> nat)) (tr : list event) :
  (forall tr',
     thread_main fuel L r coord decode walk sample_rate draws tr = (tr', Ret tt) ->
     coord (length tr') = true)
  /\ ((forall n, coord n = false) ->
      forall tr',
        thread_main fuel L r coord decode walk sample_rate draws tr
        <> (tr', Ret tt)).
Proof.
  assert (Hret : forall tr',
            thread_main fuel L r coord decode walk sample_rate draws tr
            = (tr', Ret tt) ->
            coord (length tr') = true).
  { revert tr. induction draws as [|draw draws IH]; intros tr tr' H; [done|].
    cbn [thread_main] in H.
    destruct (load_generic_audio decode walk sample_rate draw) as [ys ended].
    apply bind_Ret_inv in H as (tr1 & stop & Hloop & H).
    destruct stop.
    - unfold ret in H. injection H as <-. by apply epoch_loop_stop in Hloop.
    - by apply IH in H. }
  split; [exact Hret|].
  intros Hnever tr' H. apply Hret in H. by rewrite Hnever in H.
Qed.

Lemma thread_main_returns_on_cancellation_only_witness :
  (fun n => (0 <=? n)%nat) (length (@nil event)) = true
  /\ forall tr',
       thread_main 8 example_library (reader (Some 2) 0 None false false)
         (fun _ => false) (fun _ _ => [1; 2; 3; 4; 5; 6; 7]%Q)
         [("corpus", [], ["p2_1.wav"; "p9_3.wav"])]%string 1
         [fun _ => 1%nat] []
       <> (tr', Ret tt).
Proof.
  split.
  - apply (thread_main_returns_on_cancellation_only 8 example_library
             (reader (Some 2) 0 None false false) (fun n => (0 <=? n)%nat)
             (fun _ _ => [1; 2; 3; 4; 5; 6; 7]%Q)
             [("corpus", [], ["p2_1.wav"; "p9_3.wav"])]%string 1
             [fun _ => 1%nat] []).
    reflexivity.
  - apply (thread_main_returns_on_cancellation_only 8 example_library
             (reader (Some 2) 0 None false false) (fun _ => false)).
    reflexivity.
Defined.

(** ** From the generator to the worker *)

(** X22: every tuple [load_generic_audio] yields holds a one-dimensional
    array, which the body of the loop in [thread_main] cannot index or
    pad: it raises [IndexError] when silence trimming is on and
    [ValueError] when it is off, before anything is pushed or printed. *)
Theorem yielded_tuple_raises (decode : string -> Z -> list Q)
    (walk : list (string * list string * list string)) (sample_rate : Z)
    (draw : nat -> nat) (fuel : nat) (L : library) (r : AudioReader)
    (y : yielded) (tr : list event) :
  y ∈ fst (load_generic_audio decode walk sample_rate draw) ->
  process_yielded fuel L r y tr
  = (tr, Raised (match silence_threshold r with
                 | Some _ => IndexError
                 | None => ValueError
                 end)).
Proof.
  unfold load_generic_audio.
  destruct (randomize_files (find_files walk) draw) as [fns e].
  cbn [fst]. intros Hy. apply list_elem_of_fmap in Hy as (fn & -> & _).
  unfold process_yielded, as_item. cbn [load_file yielded_audio].
  by destruct (silence_threshold r).
Qed.

Lemma yielded_tuple_raises_witness :
  process_yielded 8 example_library (reader (Some 2) 1 None true true)
    {| yielded_audio := Vector [1; 2]%Q;
       yielded_filename := "corpus/p9_3.wav";
       yielded_category_id := Some 9 |} []
  = ([], Raised ValueError).
Proof.
  apply (yielded_tuple_raises (fun _ _ => [1; 2; 3; 4; 5; 6; 7]%Q)
           [("corpus", [], ["p2_1.wav"; "p9_3.wav"])]%string 1 (fun _ => 1%nat)
           8 example_library (reader (Some 2) 1 None true true)).
  apply list_elem_of_here.
Defined.




Lemma windowed_queues_aligned_witness :
  exists tr,
    enqueue_file 8 example_library (reader (Some 2) 1 None true true)
      {| audio := []; filename := "p3_1.wav"; category_id := Some 3 |}
      [0; 1; 2; 3; 4; 5; 6]%Q [] = (tr, Ret tt)
    /\ enqueued tr = windows_of 1 2 [0; 1; 2; 3; 4; 5; 6]%Q
    /\ gc_enqueued tr = map (fun _ => 3) (enqueued tr)
    /\ map Ok (lc_enqueued tr) = map (lc_embedding example_library) (enqueued tr).
Proof.
  apply (windowed_queues_aligned 8 example_library
           (reader (Some 2) 1 None true true)
           {| audio := []; filename := "p3_1.wav"; category_id := Some 3 |}
           [0; 1; 2; 3; 4; 5; 6]%Q 2 3).
  - reflexivity.
  - lia.
  - simpl; lia.
  - simpl; lia.
  - reflexivity.
  - reflexivity.
  - reflexivity.
  - intros piece. eexists. vm_compute. reflexivity.
Defined.

(** * Further properties of the embedding *)

Lemma np_nonzero_from_lookup mask : forall i d,
  mask !! d = Some true -> (i + d)%nat ∈ np_nonzero_from i mask.
Proof.
  induction mask as [|b mask IH]; intros i d Hd; [done|].
  destruct d as [|d]; simpl in *.
  - injection Hd as ->. rewrite Nat.add_0_r. apply list_elem_of_here.
  - replace (i + S d)%nat with (S i + d)%nat by lia.
    destruct b; [apply list_elem_of_further|]; by apply IH.
Qed.

Lemma elem_of_nonzero_positions (a : list Q) (j : nat) :
  j ∈ np_nonzero (map is_nonzero a)
  <-> exists m, a !! j = Some m /\ is_nonzero m = true.
Proof.
  unfold np_nonzero. split.
  - intros H. apply elem_of_np_nonzero_from in H as (d & -> & Hd).
    rewrite list_lookup_fmap in Hd. simpl.
    destruct (a !! d) as [m|]; [|done]. injection Hd as Hd. by exists m.
  - intros (m & Hm & Hnz).
    apply (np_nonzero_from_lookup (map is_nonzero a) 0 j).
    by rewrite list_lookup_fmap, Hm, <- Hnz.
Qed.

(** X23: a frame with at most six nonzero magnitudes is encoded exactly:
    its row of the embedding has 1.0 where the magnitude is nonzero and
    0.0 everywhere else. *)
Theorem few_peaks_encoded_exactly (L : library) (mags : list Q) :
  Forall (fun m => (0 <= m)%Q) mags ->
  argpartition_ok L mags = true ->
  (nonzero_cnt mags <= 6)%nat ->
  exists row,
    lc_row L mags = Ok row
    /\ length row = length mags
    /\ forall j m, mags !! j = Some m ->
         row !! j = Some (if is_nonzero m then 1%Q else 0%Q).
Proof.
  intros Hpos Hok Hfew.
  destruct (lc_row_spec L mags Hpos Hok)
    as (row & Hrow & Hlen & H01 & Hcnt & _ & Hones & _).
  exists row. split; [done|]. split; [done|].
  (* the positions of the ones are the positions of the nonzero magnitudes *)
  assert (Hsub : forall j, j ∈ np_nonzero (map is_nonzero row) ->
                   j ∈ np_nonzero (map is_nonzero mags)).
  { intros j Hj. apply elem_of_nonzero_positions in Hj as (v & Hv & Hnz).
    destruct (H01 j v Hv) as [->| ->]; [done|].
    destruct (lookup_lt_is_Some_2 mags j) as [m Hm].
    { rewrite <- Hlen. by apply lookup_lt_Some in Hv. }
    apply elem_of_nonzero_positions. exists m. split; [done|].
    apply is_nonzero_true. by destruct (Hones j m Hv Hm). }
  assert (Hperm : np_nonzero (map is_nonzero row)
                  ≡ₚ np_nonzero (map is_nonzero mags)).
  { apply submseteq_length_Permutation.
    - apply NoDup_submseteq; [apply NoDup_np_nonzero_from | done].
    - fold (nonzero_cnt mags). fold (nonzero_cnt row). lia. }
  intros j m Hm.
  destruct (lookup_lt_is_Some_2 row j) as [v Hv].
  { rewrite Hlen. by apply lookup_lt_Some in Hm. }
  rewrite Hv. f_equal.
  destruct (is_nonzero m) eqn:Hnz.
  - assert (Hj : j ∈ np_nonzero (map is_nonzero row)).
    { rewrite Hperm. apply elem_of_nonzero_positions. by exists m. }
    apply elem_of_nonzero_positions in Hj as (v' & Hv' & Hnz').
    rewrite Hv in Hv'. injection Hv' as <-.
    by destruct (H01 j v Hv) as [->| ->].
  - destruct (H01 j v Hv) as [->| ->]; [done|].
    destruct (Hones j m Hv Hm) as [Hne _].
    apply is_nonzero_true in Hne. congruence.
Qed.

Lemma few_peaks_encoded_exactly_witness :
  exists row,
    lc_row example_library [0; 2; 0; 0; 2; 0; 0; 1]%Q = Ok row
    /\ length row = length [0; 2; 0; 0; 2; 0; 0; 1]%Q
    /\ forall j m, [0; 2; 0; 0; 2; 0; 0; 1]%Q !! j = Some m ->
         row !! j = Some (if is_nonzero m then 1%Q else 0%Q).
Proof.
  apply (few_peaks_encoded_exactly example_library [0; 2; 0; 0; 2; 0; 0; 1]%Q).
  - repeat constructor; discriminate.
  - vm_compute. reflexivity.
  - vm_compute. lia.
Defined.

Lemma np_transpose_shape (m : list (list Q)) (frames : nat) :
  m <> [] -> Forall (fun bin => length bin = frames) m ->
  length (np_transpose m) = frames
  /\ Forall (fun frame => length frame = length m) (np_transpose m).
Proof.
  intros Hne Hrect. unfold np_transpose. destruct m as [|r0 m']; [done|].
  inversion Hrect as [|? ? Hr0 _]; subst. split.
  - by rewrite length_map, length_seq.
  - apply Forall_forall. intros frame Hf.
    apply list_elem_of_fmap in Hf as (j & -> & _). by rewrite length_map.
Qed.

(** X24: when the pitch primitive returns a rectangle of [bins] rows and
    [frames] columns, the embedding of the window has one row per frame
    and one entry per bin, the shape the conditioning queue is declared
    with. *)
Theorem embedding_shape (L : library) (piece : list Q) (frames : nat) :
  let bins := piptrack L piece in
  let magnitudes := np_transpose bins in
  bins <> [] -> Forall (fun bin => length bin = frames) bins ->
  Forall (Forall (fun m => (0 <= m)%Q)) magnitudes ->
  Forall (fun mags => argpartition_ok L mags = true) magnitudes ->
  exists emb,
    lc_embedding L piece = Ok emb
    /\ length emb = frames
    /\ Forall (fun row => length row = length bins) emb.
Proof.
  intros bins magnitudes Hne Hrect Hpos Hok.
  destruct (np_transpose_shape bins frames Hne Hrect) as [Hframes Hbins].
  destruct (lc_rows_spec L magnitudes Hpos Hok) as (emb & Hemb & Hall).
  exists emb. split; [done|].
  pose proof (Forall2_length _ _ _ Hall) as Hlen.
  split; [by rewrite <- Hlen|].
  apply Forall_forall. intros row Hrow.
  apply list_elem_of_lookup in Hrow as [i Hi].
  destruct (Forall2_lookup_r _ _ _ _ _ Hall Hi) as (mags & Hm & Hspec).
  destruct Hspec as [-> _].
  eapply Forall_lookup_1 in Hbins; [|exact Hm]. done.
Qed.

Lemma embedding_shape_witness :
  exists emb,
    lc_embedding example_library [0; 1; 2]%Q = Ok emb
    /\ length emb = 3%nat
    /\ Forall (fun row => length row = length (piptrack example_library [0; 1; 2]%Q))
         emb.
Proof.
  apply (embedding_shape example_library [0; 1; 2]%Q 3).
  - discriminate.
  - repeat constructor.
  - vm_compute. repeat constructor; discriminate.
  - vm_compute. repeat constructor.
Defined.

Lemma not_all_have_id_iff_no_category_witness :
  exists f, f ∈ ["p2_1.wav"; "recording.wav"]%string /\ category_id_of f = None.
Proof.
  apply (not_all_have_id_iff_no_category ["p2_1.wav"; "recording.wav"]%string).
  reflexivity.
Defined.

Lemma init_outcome_witness :
  AudioReader_init ["p2_1.wav"; "recording.wav"]%string true false 1000 None None
  = Raise ValueError.
Proof.
  apply (init_outcome ["p2_1.wav"; "recording.wav"]%string true false 1000 None None).
  right. split; [reflexivity|].
  constructor 2. constructor 1. reflexivity.
Defined.
